(** * Authoritative game-state engine of the multiplayer demo server

    A shallow embedding of [server.py]: the shared world (player map,
    bullet list, identity counter, connection registry, session clock)
    and the four pieces of code that run under the global lock:

    - the body of [main]'s accept loop ([accept]),
    - the body of [handle_client]'s receive loop ([handle_message]) and
      its [finally] block ([teardown]),
    - one iteration of [game_loop] ([game_tick]), which calls
      [check_bullet_collisions] and [broadcast_game_state].

    Since every one of them holds [lock] for its whole duration, the
    server is modelled as an interleaving of these atomic steps.

    Number model: positions, velocities, health and kills are Python
    [int]s (unbounded), modelled as [Z]; the payloads [dx], [dy] of a
    message are taken to be [int]s as well.  Readings of [time.time()]
    are modelled as rationals.  Python's [dict] keeps insertion order and
    the collision resolver enumerates it, so a [dict] with integer keys
    is an association list with unique keys. *)

From Stdlib Require Import ZArith QArith Qminmax List Bool String Lia.
From Stdlib Require Import Lqa.
Import ListNotations.
Local Open Scope Z_scope.

(** ** Exceptions *)

Inductive exn : Type :=
| KeyError
| ValueError.

Inductive result (A : Type) : Type :=
| Ok (a : A)
| Raise (e : exn).

Arguments Ok {A} a.
Arguments Raise {A} e.

Definition bind {A B : Type} (r : result A) (k : A -> result B) : result B :=
  match r with
  | Ok a => k a
  | Raise e => Raise e
  end.

Declare Scope result_scope.
Delimit Scope result_scope with result.
Notation "x <- r ;; k" := (bind r (fun x => k))
  (at level 61, r at next level, right associativity) : result_scope.
Notation "' p <- r ;; k" := (bind r (fun x => let p := x in k))
  (at level 61, p pattern, r at next level, right associativity) : result_scope.
Local Open Scope result_scope.

(** ** Python [dict] with integer keys, in insertion order *)

Module Dict.
Section Dict.
Context {V : Type}.

Definition t : Type := list (Z * V).

Definition keys (d : t) : list Z := map fst d.

(** [len(d)] *)
Definition len (d : t) : Z := Z.of_nat (List.length d).

Fixpoint get (k : Z) (d : t) : option V :=
  match d with
  | [] => None
  | (k', v) :: d' => if k =? k' then Some v else get k d'
  end.

(** [k in d] *)
Definition mem (k : Z) (d : t) : bool :=
  match get k d with
  | Some _ => true
  | None => false
  end.

(** [d[k]] as an expression *)
Definition getitem (k : Z) (d : t) : result V :=
  match get k d with
  | Some v => Ok v
  | None => Raise KeyError
  end.

(** [d[k] = v]: an existing key keeps its place, a new one goes last. *)
Fixpoint set (k : Z) (v : V) (d : t) : t :=
  match d with
  | [] => [(k, v)]
  | (k', v') :: d' =>
      if k =? k' then (k', v) :: d' else (k', v') :: set k v d'
  end.

(** In-place mutation of the object stored under [k]
    (a write through a reference to [d[k]]); no effect without [k]. *)
Fixpoint update (k : Z) (f : V -> V) (d : t) : t :=
  match d with
  | [] => []
  | (k', v') :: d' =>
      if k =? k' then (k', f v') :: d' else (k', v') :: update k f d'
  end.

Fixpoint remove (k : Z) (d : t) : t :=
  match d with
  | [] => []
  | (k', v') :: d' =>
      if k =? k' then d' else (k', v') :: remove k d'
  end.

(** [del d[k]] *)
Definition delitem (k : Z) (d : t) : result t :=
  if mem k d then Ok (remove k d) else Raise KeyError.

(** The representation invariant of a [dict]: no key occurs twice. *)
Definition wf (d : t) : Prop := NoDup (keys d).
End Dict.
Arguments t : clear implicits.
End Dict.

(** ** Data model *)

Definition conn : Type := nat.

Record player : Type := mkPlayer {
  pos : Z * Z;
  color : Z * Z * Z;
  health : Z;
  kills : Z;
  is_dead : bool
}.

Record bullet : Type := mkBullet {
  b_x : Z;
  b_y : Z;
  b_dx : Z;
  b_dy : Z;
  owner_id : Z
}.

(** What [pickle.loads] yields for a client message, seen through the
    four [msg.get] calls of [handle_client]: [None] is an absent key. *)
Record msg : Type := mkMsg {
  action : option string;
  player_id : option Z;
  m_dx : option Z;
  m_dy : option Z
}.

Record world : Type := mkWorld {
  players : Dict.t player;
  bullets : list bullet;
  next_player_id : Z;
  client_sockets : list conn;
  player_connections : Dict.t conn;
  game_start_time : option Q
}.

Definition MAX_PLAYERS : Z := 5.
Definition GAME_DURATION : Z := 300.

Definition initial_world : world :=
  mkWorld [] [] 0 [] [] None.

(** Messages the server puts on a socket, and what it does to one. *)
Inductive wire : Type :=
| ServerFull
| Handshake (pid : Z) (max_players : Z)
| GameState (ps : Dict.t player) (bs : list bullet) (time_left : Q).

Inductive effect : Type :=
| Send (c : conn) (m : wire)
| Close (c : conn)
| StartThread (c : conn) (pid : Z).

(** Field assignments. *)
Definition set_pos (xy : Z * Z) (p : player) : player :=
  mkPlayer xy (color p) (health p) (kills p) (is_dead p).
Definition set_health (h : Z) (p : player) : player :=
  mkPlayer (pos p) (color p) h (kills p) (is_dead p).
Definition set_kills (k : Z) (p : player) : player :=
  mkPlayer (pos p) (color p) (health p) k (is_dead p).
Definition set_is_dead (d : bool) (p : player) : player :=
  mkPlayer (pos p) (color p) (health p) (kills p) d.

Definition set_players (ps : Dict.t player) (w : world) : world :=
  mkWorld ps (bullets w) (next_player_id w) (client_sockets w)
          (player_connections w) (game_start_time w).
Definition set_bullets (bs : list bullet) (w : world) : world :=
  mkWorld (players w) bs (next_player_id w) (client_sockets w)
          (player_connections w) (game_start_time w).
Definition set_next_player_id (n : Z) (w : world) : world :=
  mkWorld (players w) (bullets w) n (client_sockets w)
          (player_connections w) (game_start_time w).
Definition set_client_sockets (cs : list conn) (w : world) : world :=
  mkWorld (players w) (bullets w) (next_player_id w) cs
          (player_connections w) (game_start_time w).
Definition set_player_connections (pc : Dict.t conn) (w : world) : world :=
  mkWorld (players w) (bullets w) (next_player_id w) (client_sockets w)
          pc (game_start_time w).
Definition set_game_start_time (t : option Q) (w : world) : world :=
  mkWorld (players w) (bullets w) (next_player_id w) (client_sockets w)
          (player_connections w) t.

(** ** [handle_client]: one decoded message, under the lock *)

(** [msg.get(key, 0)] *)
Definition get_default (o : option Z) : Z :=
  match o with
  | Some v => v
  | None => 0
  end.

(** [action == name] for [action = msg.get("action")] *)
Definition is_action (name : string) (a : option string) : bool :=
  match a with
  | Some s => String.eqb s name
  | None => false
  end.

(** Lines 54-76 for a message that carries the key [pid]. *)
Definition handle_intent (act : option string) (pid : Z)
    (odx ody : option Z) (w : world) : result world :=
  dead <- (if Dict.mem pid (players w)
           then p <- Dict.getitem pid (players w) ;; Ok (is_dead p)
           else Ok false) ;;
  if dead then Ok w
  else if is_action "move" act then
    let dx := get_default odx in
    let dy := get_default ody in
    if Dict.mem pid (players w) then
      p <- Dict.getitem pid (players w) ;;
      let '(px, py) := pos p in
      Ok (set_players
            (Dict.update pid (set_pos (px + dx, py + dy)) (players w)) w)
    else Ok w
  else if is_action "shoot" act then
    let dx := get_default odx in
    let dy := get_default ody in
    if Dict.mem pid (players w) then
      p <- Dict.getitem pid (players w) ;;
      let '(px, py) := pos p in
      let bullet_speed := 10 in
      Ok (set_bullets
            (bullets w ++
               [mkBullet px py (dx * bullet_speed) (dy * bullet_speed) pid])
            w)
    else Ok w
  else Ok w.

(** Lines 49-76.  Without a ["player_id"] key, [pid] is [None], which is
    a key of no [dict] here: both [pid in players] tests fail and the
    message falls through every branch. *)
Definition handle_message (m : msg) (w : world) : result world :=
  match player_id m with
  | Some pid => handle_intent (action m) pid (m_dx m) (m_dy m) w
  | None => Ok w
  end.

(** ** [handle_client]: the [finally] block *)

(** [c in l] *)
Definition list_in (c : conn) (l : list conn) : bool :=
  existsb (Nat.eqb c) l.

(** [l.remove(c)]: drops the first occurrence, [ValueError] without one. *)
Fixpoint list_remove (c : conn) (l : list conn) : result (list conn) :=
  match l with
  | [] => Raise ValueError
  | c' :: l' =>
      if Nat.eqb c c' then Ok l'
      else l'' <- list_remove c l' ;; Ok (c' :: l'')
  end.

Definition teardown (pid : Z) (c : conn) (w : world)
    : result (world * list effect) :=
  ps <- (if Dict.mem pid (players w)
         then Dict.delitem pid (players w)
         else Ok (players w)) ;;
  cs <- (if list_in c (client_sockets w)
         then list_remove c (client_sockets w)
         else Ok (client_sockets w)) ;;
  pc <- (if Dict.mem pid (player_connections w)
         then Dict.delitem pid (player_connections w)
         else Ok (player_connections w)) ;;
  Ok (set_player_connections pc (set_client_sockets cs (set_players ps w)),
      [Close c]).

(** ** [broadcast_game_state] *)

Definition time_left (now : Q) (w : world) : Q :=
  match game_start_time w with
  | Some start =>
      let elapsed := (now - start)%Q in
      Qmax 0 (inject_Z GAME_DURATION - elapsed)
  | None => inject_Z GAME_DURATION
  end.

Definition snapshot (now : Q) (w : world) : wire :=
  GameState (players w) (bullets w) (time_left now w).

(** A failing [sendall] is swallowed, so the broadcast itself never fails. *)
Definition broadcast_game_state (now : Q) (w : world) : list effect :=
  map (fun cs => Send cs (snapshot now w)) (client_sockets w).

(** ** [check_bullet_collisions] *)

Definition overlaps (b : bullet) (pdata : player) : bool :=
  let bullet_left := b_x b - 4 in
  let bullet_right := b_x b + 4 in
  let bullet_top := b_y b - 4 in
  let bullet_bottom := b_y b + 4 in
  let '(px, py) := pos pdata in
  let player_left := px - 10 in
  let player_right := px + 10 in
  let player_top := py - 10 in
  let player_bottom := py + 10 in
  (bullet_right >=? player_left) && (bullet_left <=? player_right) &&
  (bullet_bottom >=? player_top) && (bullet_top <=? player_bottom).

(** Lines 164-174.  [pdata] is a reference to the object stored under
    [pid], so each assignment to it is written through to the map. *)
Definition apply_hit (owner : Z) (pid : Z) (pdata : player)
    (ps : Dict.t player) : result (Dict.t player) :=
  let pdata1 := set_health (health pdata - 25) pdata in
  let ps1 := Dict.update pid (fun _ => pdata1) ps in
  if health pdata1 <=? 0 then
    ps2 <- (if Dict.mem owner ps1
            then o <- Dict.getitem owner ps1 ;;
                 Ok (Dict.update owner (set_kills (kills o + 1)) ps1)
            else Ok ps1) ;;
    let pdata2 := set_is_dead true pdata1 in
    let ps3 := Dict.update pid (fun _ => pdata2) ps2 in
    let pdata3 := set_health 0 pdata2 in
    Ok (Dict.update pid (fun _ => pdata3) ps3)
  else Ok ps1.

(** The inner loop (lines 142-176) over the snapshot
    [list(players.items())]; the boolean is [hit_something]. *)
Fixpoint scan_players (b : bullet) (items : list (Z * player))
    (ps : Dict.t player) : result (Dict.t player * bool) :=
  match items with
  | [] => Ok (ps, false)
  | (pid, pdata) :: rest =>
      if (pid =? owner_id b) || is_dead pdata then scan_players b rest ps
      else if overlaps b pdata then
        ps' <- apply_hit (owner_id b) pid pdata ps ;; Ok (ps', true)
      else scan_players b rest ps
  end.

(** The outer loop (lines 137-179). *)
Fixpoint collide_loop (bs : list bullet) (ps : Dict.t player)
    (surviving_bullets : list bullet)
    : result (Dict.t player * list bullet) :=
  match bs with
  | [] => Ok (ps, surviving_bullets)
  | b :: rest =>
      '(ps', hit_something) <- scan_players b ps ps ;;
      collide_loop rest ps'
        (if hit_something then surviving_bullets
         else surviving_bullets ++ [b])
  end.

Definition check_bullet_collisions (w : world) : result world :=
  '(ps, surviving_bullets) <- collide_loop (bullets w) (players w) [] ;;
  Ok (set_bullets surviving_bullets (set_players ps w)).

(** ** [game_loop]: one iteration *)

Definition move_bullet (b : bullet) : bullet :=
  mkBullet (b_x b + b_dx b) (b_y b + b_dy b) (b_dx b) (b_dy b) (owner_id b).

Definition in_bounds (b : bullet) : bool :=
  (0 <=? b_x b) && (b_x b <=? 800) && (0 <=? b_y b) && (b_y b <=? 600).

Definition game_tick (now : Q) (w : world) : result (world * list effect) :=
  let w1 := set_bullets (map move_bullet (bullets w)) w in
  let w2 := set_bullets (filter in_bounds (bullets w1)) w1 in
  w3 <- check_bullet_collisions w2 ;;
  Ok (w3, broadcast_game_state now w3).

(** ** [main]: one iteration of the accept loop *)

Definition new_player (color : Z * Z * Z) : player :=
  mkPlayer (400, 300) color 100 0 false.

Definition accept (c : conn) (color : Z * Z * Z) (now : Q) (w : world)
    : world * list effect :=
  if Dict.len (players w) >=? MAX_PLAYERS then
    (w, [Send c ServerFull; Close c])
  else
    let pid := next_player_id w in
    let w := set_next_player_id (next_player_id w + 1) w in
    let w := set_players (Dict.set pid (new_player color) (players w)) w in
    let w := set_client_sockets (client_sockets w ++ [c]) w in
    let w := set_player_connections
               (Dict.set pid c (player_connections w)) w in
    let w := match game_start_time w with
             | None =>
                 if Dict.len (players w) >=? 4
                 then set_game_start_time (Some now) w
                 else w
             | Some _ => w
             end in
    (w, [Send c (Handshake pid MAX_PLAYERS); StartThread c pid]).

(** ** The server as an interleaving of atomic steps *)

Inductive event : Type :=
| Accept (c : conn) (color : Z * Z * Z) (now : Q)
| Receive (m : msg)
| Disconnect (pid : Z) (c : conn)
| Tick (now : Q).

Definition run_event (e : event) (w : world) : result (world * list effect) :=
  match e with
  | Accept c color now => Ok (accept c color now w)
  | Receive m => w' <- handle_message m w ;; Ok (w', [])
  | Disconnect pid c => teardown pid c w
  | Tick now => game_tick now w
  end.

Fixpoint run_events (es : list event) (w : world) : result world :=
  match es with
  | [] => Ok w
  | e :: es' => '(w', _) <- run_event e w ;; run_events es' w'
  end.

(** ** The collision rule in the words of the specification *)

(** A victim is a non-owner, non-dead player. *)
Definition eligible (b : bullet) (pid : Z) (pdata : player) : bool :=
  negb (pid =? owner_id b) && negb (is_dead pdata).

(** The first eligible player, in enumeration order, that the bullet
    overlaps. *)
Definition first_victim (b : bullet) (ps : Dict.t player)
    : option (Z * player) :=
  find (fun kv => eligible b (fst kv) (snd kv) && overlaps b (snd kv)) ps.

(** Damage of 25, with the death transition at zero or below. *)
Definition damaged (pdata : player) : player :=
  if health pdata - 25 <=? 0
  then mkPlayer (pos pdata) (color pdata) 0 (kills pdata) true
  else mkPlayer (pos pdata) (color pdata) (health pdata - 25)
                (kills pdata) (is_dead pdata).

(** Kill credit. *)
Definition credited (o : player) : player :=
  mkPlayer (pos o) (color o) (health o) (kills o + 1) (is_dead o).

(** What one bullet does to the player map, and whether it is spent:
    the first victim is damaged, its killer is credited, nobody else is
    touched. *)
Definition resolve_bullet (b : bullet) (ps : Dict.t player)
    : Dict.t player * bool :=
  match first_victim b ps with
  | Some (vid, pdata) =>
      let ps' := Dict.update vid (fun _ => damaged pdata) ps in
      (if health pdata - 25 <=? 0
       then Dict.update (owner_id b) credited ps'
       else ps',
       true)
  | None => (ps, false)
  end.

(** One pass over the bullet list: the final player map and the bullets
    that are not spent, in their order. *)
Fixpoint resolve_all (bs : list bullet) (ps : Dict.t player)
    : Dict.t player * list bullet :=
  match bs with
  | [] => (ps, [])
  | b :: rest =>
      let '(ps', hit) := resolve_bullet b ps in
      let '(ps'', sv) := resolve_all rest ps' in
      (ps'', if hit then sv else b :: sv)
  end.

(** What a bullet cannot change in a player it does not hit. *)
Definition vitals (p : player) : Z * Z * (Z * Z * Z) * Z * bool :=
  (pos p, color p, health p, is_dead p).

(** The sender named by a message is unknown or dead. *)
Definition stale_sender (m : msg) (w : world) : Prop :=
  match player_id m with
  | None => True
  | Some pid =>
      match Dict.get pid (players w) with
      | None => True
      | Some p => is_dead p = true
      end
  end.

(** The health invariant of a player record. *)
Definition player_ok (p : player) : Prop :=
  0 <= health p <= 100 /\ (health p = 0 <-> is_dead p = true).

(** The closed arena rectangle. *)
Definition inside_arena (b : bullet) : Prop :=
  0 <= b_x b <= 800 /\ 0 <= b_y b <= 600.

(** ** Sample data *)

Definition grey : Z * Z * Z := (128, 128, 128).

(** Three players in a row; player 1 is one hit from death. *)
Definition sample_players : Dict.t player :=
  [(0, mkPlayer (100, 100) grey 100 0 false);
   (1, mkPlayer (200, 100) grey 25 0 false);
   (2, mkPlayer (205, 100) grey 100 0 false)].

(** A bullet of player 0 that overlaps players 1 and 2. *)
Definition sample_bullet : bullet := mkBullet 203 100 10 0 0.

Definition sample_world : world :=
  mkWorld sample_players [sample_bullet] 3 [0%nat; 1%nat; 2%nat]
          [(0, 0%nat); (1, 1%nat); (2, 2%nat)] None.

(** Two admissions, a shot of player 0 and the tick in which it hits
    player 1, who stands on the same spawn point. *)
Definition sample_trace : list event :=
  [Accept 0%nat grey 0%Q; Accept 1%nat grey 0%Q;
   Receive (mkMsg (Some "shoot"%string) (Some 0) (Some 1) (Some 0));
   Tick 1%Q].

(** Five players: the server is full. *)
Definition full_world : world :=
  mkWorld [(0, new_player grey); (1, new_player grey); (2, new_player grey);
           (3, new_player grey); (4, new_player grey)]
          [] 5 [0%nat; 1%nat; 2%nat; 3%nat; 4%nat]
          [(0, 0%nat); (1, 1%nat); (2, 2%nat); (3, 3%nat); (4, 4%nat)]
          (Some 0%Q).

(** A shot in the name of player 9, who is not in [sample_world]. *)
Definition stray_shot : msg :=
  mkMsg (Some "shoot"%string) (Some 9) (Some 1) (Some 0).

(** Four shots of player 0 at player 1 on the shared spawn point, each
    followed by the tick in which it hits: player 1 dies. *)
Definition kill_trace : list event :=
  [Accept 0%nat grey 0%Q; Accept 1%nat grey 0%Q;
   Receive (mkMsg (Some "shoot"%string) (Some 0) (Some 1) (Some 0)); Tick 1%Q;
   Receive (mkMsg (Some "shoot"%string) (Some 0) (Some 1) (Some 0)); Tick 2%Q;
   Receive (mkMsg (Some "shoot"%string) (Some 0) (Some 1) (Some 0)); Tick 3%Q;
   Receive (mkMsg (Some "shoot"%string) (Some 0) (Some 1) (Some 0)); Tick 4%Q].

(** What the dead player and the others try afterwards. *)
Definition after_death_trace : list event :=
  [Receive (mkMsg (Some "move"%string) (Some 1) (Some 5) (Some 5));
   Receive (mkMsg (Some "shoot"%string) (Some 1) (Some 1) (Some 0));
   Accept 2%nat grey 5%Q;
   Receive (mkMsg (Some "shoot"%string) (Some 2) (Some 1) (Some 0));
   Tick 6%Q; Tick 7%Q].

(** ** Scenario A of the specification *)

Definition scenario_A (owner victim : Z) (co cv : Z * Z * Z)
    (owner_first : bool) : world :=
  let o := (owner, mkPlayer (0, 0) co 100 0 false) in
  let v := (victim, mkPlayer (10, 0) cv 100 0 false) in
  mkWorld (if owner_first then [o; v] else [v; o]) []
          (Z.max owner victim + 1) [] [] None.

Definition shoot_right (owner : Z) : msg :=
  mkMsg (Some "shoot"%string) (Some owner) (Some 1) (Some 0).

Definition scenario_A_run (owner victim : Z) (co cv : Z * Z * Z)
    (owner_first : bool) (now : Q) : result world :=
  run_events [Receive (shoot_right owner); Receive (shoot_right owner);
              Receive (shoot_right owner); Tick now]
             (scenario_A owner victim co cv owner_first).

(** ** [send_msg_to_player] *)

(** Lines 117-125; whatever goes wrong inside the [try] is swallowed. *)
Definition send_msg_to_player (pid : Z) (m : wire) (w : world)
    : list effect :=
  if Dict.mem pid (player_connections w) then
    match Dict.getitem pid (player_connections w) with
    | Ok c => [Send c m]
    | Raise _ => []
    end
  else [].

(** ** The client's side of the handshake ([client.py], lines 106-121) *)

(** The ["action"] and ["player_id"] entries of the dictionaries the
    server pickles (server lines 104-108, 227 and 259-263). *)
Definition wire_action (m : wire) : option string :=
  match m with
  | ServerFull => Some "server_full"%string
  | Handshake _ _ => Some "handshake"%string
  | GameState _ _ _ => None
  end.

Definition wire_player_id (m : wire) : option Z :=
  match m with
  | Handshake pid _ => Some pid
  | _ => None
  end.

Inductive client_start : Type :=
| ClientExit
| ClientConnected (my_id : option Z).

Definition client_handshake (handshake : wire) : client_start :=
  if is_action "server_full" (wire_action handshake) then ClientExit
  else if is_action "handshake" (wire_action handshake)
  then ClientConnected (wire_player_id handshake)
  else ClientExit.

(** ** Measures used in the statements *)

(** The health of all registered players together. *)
Definition total_health (ps : Dict.t player) : Z :=
  fold_right (fun kv acc => health (snd kv) + acc) 0 ps.

(** Two admissions, then the first player leaves. *)
Definition leave_trace : list event :=
  [Accept 0%nat grey 0%Q; Accept 1%nat grey 0%Q; Disconnect 0 0%nat].

(** Seven connection attempts in a row. *)
Definition crowd_trace : list event :=
  [Accept 0%nat grey 0%Q; Accept 1%nat grey 0%Q; Accept 2%nat grey 0%Q;
   Accept 3%nat grey 0%Q; Accept 4%nat grey 0%Q; Accept 5%nat grey 0%Q;
   Accept 6%nat grey 0%Q].

(** Two admissions; and what follows the departure of player 0. *)
Definition two_admissions : list event :=
  [Accept 0%nat grey 0%Q; Accept 1%nat grey 0%Q].

Definition rejoin_trace : list event :=
  [Accept 2%nat grey 1%Q;
   Receive (mkMsg (Some "move"%string) (Some 0) (Some 5) (Some 0));
   Tick 2%Q; Accept 3%nat grey 3%Q].



(** A number per player, added up over the map. *)
Definition tally (f : player -> Z) (ps : Dict.t player) : Z :=
  fold_right (fun kv acc => f (snd kv) + acc) 0 ps.

Definition total_kills (ps : Dict.t player) : Z := tally kills ps.

Definition dead_count (ps : Dict.t player) : Z :=
  tally (fun p => if is_dead p then 1 else 0) ps.


(** * Facts about [dict] *)

Section DictFacts.
Context {V : Type}.
Implicit Types (d : Dict.t V) (k : Z) (v : V) (f g : V -> V).

Lemma dict_get_In k v d : Dict.get k d = Some v -> In (k, v) d.
Proof.
  induction d as [|[k' v'] d IH]; simpl; [discriminate|].
  destruct (Z.eqb_spec k k') as [->|Hne].
  - intros [= ->]. now left.
  - intros H. right. now apply IH.
Qed.

Lemma dict_In_mem k v d : In (k, v) d -> Dict.mem k d = true.
Proof.
  unfold Dict.mem.
  induction d as [|[k' v'] d IH]; simpl; [tauto|].
  intros [[= -> ->]|Hin].
  - now rewrite Z.eqb_refl.
  - destruct (k =? k'); [reflexivity|]. now apply IH.
Qed.

Lemma dict_mem_get k d :
  Dict.mem k d = true -> exists v, Dict.get k d = Some v.
Proof.
  unfold Dict.mem. destruct (Dict.get k d) as [v|]; [eauto|discriminate].
Qed.

Lemma dict_get_mem k v d : Dict.get k d = Some v -> Dict.mem k d = true.
Proof. unfold Dict.mem. now intros ->. Qed.

Lemma dict_get_not_key k d : ~ In k (Dict.keys d) -> Dict.get k d = None.
Proof.
  induction d as [|[k' v'] d IH]; simpl; [reflexivity|].
  intros Hn. destruct (Z.eqb_spec k k') as [->|Hne]; [tauto|].
  apply IH. tauto.
Qed.

Lemma dict_In_get k v d : Dict.wf d -> In (k, v) d -> Dict.get k d = Some v.
Proof.
  unfold Dict.wf.
  induction d as [|[k' v'] d IH]; simpl; [tauto|].
  intros Hnd [[= -> ->]|Hin].
  - now rewrite Z.eqb_refl.
  - inversion Hnd as [|? ? Hnotin Hnd']; subst.
    destruct (Z.eqb_spec k k') as [->|Hne].
    + exfalso. apply Hnotin. change k' with (fst (k', v)).
      now apply in_map.
    + now apply IH.
Qed.

Lemma dict_get_update k k' f d :
  Dict.get k' (Dict.update k f d) =
  if k' =? k then option_map f (Dict.get k d) else Dict.get k' d.
Proof.
  induction d as [|[k0 v0] d IH]; simpl.
  - now destruct (k' =? k).
  - destruct (Z.eqb_spec k k0) as [->|Hne]; simpl.
    + destruct (Z.eqb_spec k' k0) as [->|Hne']; reflexivity.
    + destruct (Z.eqb_spec k' k0) as [->|Hne']; simpl.
      * destruct (Z.eqb_spec k0 k); [congruence|reflexivity].
      * exact IH.
Qed.

Lemma dict_get_update_same k f d :
  Dict.get k (Dict.update k f d) = option_map f (Dict.get k d).
Proof. now rewrite dict_get_update, Z.eqb_refl. Qed.

Lemma dict_get_update_other k k' f d :
  k' <> k -> Dict.get k' (Dict.update k f d) = Dict.get k' d.
Proof.
  intros Hne. rewrite dict_get_update.
  now destruct (Z.eqb_spec k' k).
Qed.

Lemma dict_mem_update k k' f d :
  Dict.mem k' (Dict.update k f d) = Dict.mem k' d.
Proof.
  unfold Dict.mem. rewrite dict_get_update.
  destruct (Z.eqb_spec k' k) as [->|]; [|reflexivity].
  now destruct (Dict.get k d).
Qed.

Lemma dict_keys_update k f d : Dict.keys (Dict.update k f d) = Dict.keys d.
Proof.
  unfold Dict.keys.
  induction d as [|[k0 v0] d IH]; simpl; [reflexivity|].
  destruct (k =? k0); simpl; [reflexivity|]. now rewrite IH.
Qed.

Lemma dict_update_update k f g d :
  Dict.update k g (Dict.update k f d) = Dict.update k (fun v => g (f v)) d.
Proof.
  induction d as [|[k0 v0] d IH]; simpl; [reflexivity|].
  destruct (Z.eqb_spec k k0) as [->|Hne]; simpl.
  - now rewrite Z.eqb_refl.
  - destruct (Z.eqb_spec k k0); [congruence|]. now rewrite IH.
Qed.

Lemma dict_update_comm k k' f g d :
  k <> k' ->
  Dict.update k f (Dict.update k' g d) =
  Dict.update k' g (Dict.update k f d).
Proof.
  intros Hne.
  induction d as [|[k0 v0] d IH]; simpl; [reflexivity|].
  destruct (Z.eqb_spec k' k0) as [->|H1];
    destruct (Z.eqb_spec k k0) as [->|H2]; simpl;
    rewrite ?Z.eqb_refl; try congruence.
  - destruct (Z.eqb_spec k k0); [congruence|reflexivity].
  - destruct (Z.eqb_spec k' k0); [congruence|reflexivity].
  - destruct (Z.eqb_spec k' k0); [congruence|].
    destruct (Z.eqb_spec k k0); [congruence|]. now rewrite IH.
Qed.

Lemma dict_update_id k f d :
  (forall v, Dict.get k d = Some v -> f v = v) -> Dict.update k f d = d.
Proof.
  induction d as [|[k0 v0] d IH]; simpl; [reflexivity|].
  destruct (Z.eqb_spec k k0) as [->|Hne]; intros Hf.
  - now rewrite Hf.
  - now rewrite IH.
Qed.

Lemma dict_Forall_update (P : Z * V -> Prop) k f d :
  Forall P d -> (forall v, P (k, v) -> P (k, f v)) ->
  Forall P (Dict.update k f d).
Proof.
  intros Hall Hf.
  induction Hall as [|[k0 v0] d Hp Hall IH]; simpl; [constructor|].
  destruct (Z.eqb_spec k k0) as [->|Hne]; constructor; auto.
Qed.

Lemma dict_Forall_set (P : Z * V -> Prop) k v d :
  Forall P d -> P (k, v) -> Forall P (Dict.set k v d).
Proof.
  intros Hall Hv.
  induction Hall as [|[k0 v0] d Hp Hall IH]; simpl.
  - constructor; [exact Hv|constructor].
  - destruct (Z.eqb_spec k k0) as [->|Hne]; constructor; auto.
Qed.

Lemma dict_Forall_remove (P : Z * V -> Prop) k d :
  Forall P d -> Forall P (Dict.remove k d).
Proof.
  intros Hall.
  induction Hall as [|[k0 v0] d Hp Hall IH]; simpl; [constructor|].
  destruct (k =? k0); [assumption|]. constructor; assumption.
Qed.

Lemma dict_len_set k v d :
  Dict.len d <= Dict.len (Dict.set k v d) <= Dict.len d + 1.
Proof.
  unfold Dict.len.
  induction d as [|[k0 v0] d IH]; simpl List.length; [lia|].
  simpl. destruct (k =? k0); simpl List.length; lia.
Qed.

Lemma dict_len_remove k d : Dict.len (Dict.remove k d) <= Dict.len d.
Proof.
  unfold Dict.len.
  induction d as [|[k0 v0] d IH]; simpl; [lia|].
  destruct (k =? k0); simpl List.length; lia.
Qed.

Lemma dict_get_set k k' v d :
  Dict.get k' (Dict.set k v d) = if k' =? k then Some v else Dict.get k' d.
Proof.
  induction d as [|[k0 v0] d IH]; simpl.
  - reflexivity.
  - destruct (Z.eqb_spec k k0) as [->|Hne]; simpl.
    + now destruct (Z.eqb_spec k' k0).
    + destruct (Z.eqb_spec k' k0) as [->|Hne']; simpl.
      * destruct (Z.eqb_spec k0 k); [congruence|reflexivity].
      * exact IH.
Qed.

Lemma dict_delitem_guarded k d :
  (if Dict.mem k d then Dict.delitem k d else Ok d) =
  Ok (if Dict.mem k d then Dict.remove k d else d).
Proof. unfold Dict.delitem. now destruct (Dict.mem k d). Qed.

Lemma dict_remove_absent k d : Dict.mem k d = false -> Dict.remove k d = d.
Proof.
  unfold Dict.mem.
  induction d as [|[k0 v0] d IH]; simpl; [reflexivity|].
  destruct (k =? k0); [discriminate|]. intros H. now rewrite IH.
Qed.
End DictFacts.

(** * The collision resolver *)

Lemma dict_update_ext {V : Type} (k : Z) (f g : V -> V) (d : Dict.t V) :
  (forall v, Dict.get k d = Some v -> f v = g v) ->
  Dict.update k f d = Dict.update k g d.
Proof.
  induction d as [|[k0 v0] d IH]; simpl; [reflexivity|].
  destruct (Z.eqb_spec k k0) as [->|Hne]; intros Hf.
  - now rewrite Hf.
  - now rewrite IH.
Qed.

Lemma find_first {A : Type} (p : A -> bool) (l : list A) (a : A) :
  find p l = Some a ->
  exists before after,
    l = before ++ a :: after /\
    Forall (fun y => p y = false) before /\ p a = true.
Proof.
  induction l as [|y l IH]; simpl; [discriminate|].
  destruct (p y) eqn:Hy.
  - intros [= ->]. exists [], l. repeat split; [constructor|assumption].
  - intros Hf. destruct (IH Hf) as (before & after & -> & Hall & Ha).
    exists (y :: before), after. repeat split; [constructor|]; assumption.
Qed.

Lemma find_none_Forall {A : Type} (p : A -> bool) (l : list A) :
  find p l = None <-> Forall (fun y => p y = false) l.
Proof.
  induction l as [|y l IH]; simpl.
  - split; [constructor|reflexivity].
  - destruct (p y) eqn:Hy.
    + split; [discriminate|]. intros H. inversion H; congruence.
    + rewrite IH. split; [now constructor|]. intros H. now inversion H.
Qed.

Lemma first_victim_In b ps vid pdata :
  first_victim b ps = Some (vid, pdata) ->
  In (vid, pdata) ps /\ vid <> owner_id b /\ is_dead pdata = false /\
  overlaps b pdata = true.
Proof.
  intros Hf. destruct (find_first _ _ _ Hf) as (before & after & -> & _ & Hp).
  simpl in Hp. unfold eligible in Hp.
  apply andb_prop in Hp as [He Ho]. apply andb_prop in He as [Hk Hd].
  apply negb_true_iff in Hk, Hd. apply Z.eqb_neq in Hk.
  repeat split; try assumption. apply in_or_app. right. now left.
Qed.

(** The three writes through [pdata] and the kill credit, collapsed. *)
Lemma apply_hit_eq owner pid pdata ps :
  pid <> owner ->
  apply_hit owner pid pdata ps =
  Ok (let ps' := Dict.update pid (fun _ => damaged pdata) ps in
      if health pdata - 25 <=? 0
      then Dict.update owner credited ps'
      else ps').
Proof.
  intros Hne. unfold apply_hit, damaged. cbn [health set_health].
  destruct (health pdata - 25 <=? 0) eqn:Hh; [|reflexivity].
  rewrite dict_mem_update.
  unfold Dict.getitem. rewrite dict_get_update_other by congruence.
  destruct (Dict.mem owner ps) eqn:Hm.
  - destruct (dict_mem_get _ _ Hm) as [o Ho]. rewrite Ho. cbn [bind].
    rewrite dict_update_update.
    rewrite (dict_update_comm pid owner) by assumption.
    rewrite !dict_update_update. f_equal.
    apply dict_update_ext. intros v Hv.
    rewrite dict_get_update_other in Hv by congruence.
    assert (v = o) by congruence. subst v. reflexivity.
  - cbn [bind]. rewrite !dict_update_update. f_equal.
    symmetry. apply dict_update_id. intros v Hv.
    rewrite dict_get_update_other in Hv by congruence.
    unfold Dict.mem in Hm. now rewrite Hv in Hm.
Qed.

Lemma scan_players_find b items ps :
  scan_players b items ps =
  match find (fun kv => eligible b (fst kv) (snd kv) && overlaps b (snd kv))
             items with
  | Some (vid, pdata) =>
      ps' <- apply_hit (owner_id b) vid pdata ps ;; Ok (ps', true)
  | None => Ok (ps, false)
  end.
Proof.
  induction items as [|[pid pdata] items IH]; simpl; [reflexivity|].
  unfold eligible at 1.
  destruct (pid =? owner_id b); simpl; [exact IH|].
  destruct (is_dead pdata); simpl; [exact IH|].
  destruct (overlaps b pdata); [reflexivity|exact IH].
Qed.

(** The inner loop never raises and is the rule of the specification. *)
Lemma scan_players_resolve b ps :
  scan_players b ps ps = Ok (resolve_bullet b ps).
Proof.
  rewrite scan_players_find. unfold resolve_bullet.
  fold (first_victim b ps).
  destruct (first_victim b ps) as [[vid pdata]|] eqn:Hf; [|reflexivity].
  apply first_victim_In in Hf as (_ & Hne & _).
  rewrite apply_hit_eq by assumption. reflexivity.
Qed.

Lemma collide_loop_resolve bs ps sv :
  collide_loop bs ps sv =
  Ok (fst (resolve_all bs ps), sv ++ snd (resolve_all bs ps)).
Proof.
  revert ps sv. induction bs as [|b bs IH]; intros ps sv; simpl.
  - now rewrite app_nil_r.
  - rewrite scan_players_resolve. cbn [bind].
    destruct (resolve_bullet b ps) as [ps' hit].
    rewrite IH. destruct (resolve_all bs ps') as [ps'' sv'].
    destruct hit; simpl; [reflexivity|].
    now rewrite <- app_assoc.
Qed.

Lemma resolve_all_app bs1 bs2 ps :
  resolve_all (bs1 ++ bs2) ps =
  let '(ps1, sv1) := resolve_all bs1 ps in
  let '(ps2, sv2) := resolve_all bs2 ps1 in
  (ps2, sv1 ++ sv2).
Proof.
  revert ps. induction bs1 as [|b bs1 IH]; intros ps; simpl.
  - now destruct (resolve_all bs2 ps).
  - destruct (resolve_bullet b ps) as [ps' hit]. rewrite IH.
    destruct (resolve_all bs1 ps') as [ps1 sv1].
    destruct (resolve_all bs2 ps1) as [ps2 sv2].
    now destruct hit.
Qed.

Lemma check_bullet_collisions_resolve w :
  check_bullet_collisions w =
  Ok (set_bullets (snd (resolve_all (bullets w) (players w)))
        (set_players (fst (resolve_all (bullets w) (players w))) w)).
Proof.
  unfold check_bullet_collisions. now rewrite collide_loop_resolve.
Qed.

(** A bullet changes the vitals of its victim only. *)
Lemma resolve_bullet_others b ps vid pdata pid :
  first_victim b ps = Some (vid, pdata) -> pid <> vid ->
  option_map vitals (Dict.get pid (fst (resolve_bullet b ps))) =
  option_map vitals (Dict.get pid ps).
Proof.
  intros Hf Hne. unfold resolve_bullet. rewrite Hf.
  destruct (health pdata - 25 <=? 0); cbn [fst].
  - rewrite dict_get_update.
    destruct (Z.eqb_spec pid (owner_id b)) as [->|Ho].
    + rewrite dict_get_update_other by assumption.
      now destruct (Dict.get (owner_id b) ps).
    + now rewrite dict_get_update_other.
  - now rewrite dict_get_update_other.
Qed.

Lemma resolve_bullet_victim b ps vid pdata :
  first_victim b ps = Some (vid, pdata) ->
  Dict.get vid (fst (resolve_bullet b ps)) = Some (damaged pdata).
Proof.
  intros Hf. unfold resolve_bullet. rewrite Hf.
  apply first_victim_In in Hf as (Hin & Hne & _).
  apply dict_In_mem in Hin. apply dict_mem_get in Hin as [v Hv].
  destruct (health pdata - 25 <=? 0); cbn [fst].
  - rewrite dict_get_update_other by assumption.
    now rewrite dict_get_update_same, Hv.
  - now rewrite dict_get_update_same, Hv.
Qed.

Lemma resolve_bullet_keys b ps :
  Dict.keys (fst (resolve_bullet b ps)) = Dict.keys ps.
Proof.
  unfold resolve_bullet.
  destruct (first_victim b ps) as [[vid pdata]|]; [|reflexivity].
  destruct (health pdata - 25 <=? 0); cbn [fst];
    now rewrite !dict_keys_update.
Qed.

(** ** C1 *)

(** C1: when the resolver finds an eligible victim for a bullet, the
    victim loses exactly 25 health; at zero or below the health becomes
    0 and [is_dead] becomes true, and the owner's kill counter goes up by
    exactly 1, unless the owner is no longer in the map, when nobody is
    credited.  No key is added or removed and nobody else changes. *)
Theorem hit_damage_and_kill_credit b ps vid pdata :
  first_victim b ps = Some (vid, pdata) ->
  exists ps',
    scan_players b ps ps = Ok (ps', true) /\
    Dict.keys ps' = Dict.keys ps /\
    (exists v',
       Dict.get vid ps' = Some v' /\
       pos v' = pos pdata /\ color v' = color pdata /\
       kills v' = kills pdata /\
       (health pdata - 25 <= 0 -> health v' = 0 /\ is_dead v' = true) /\
       (0 < health pdata - 25 ->
        health v' = health pdata - 25 /\ is_dead v' = false)) /\
    (forall o,
       Dict.get (owner_id b) ps = Some o ->
       exists o',
         Dict.get (owner_id b) ps' = Some o' /\
         vitals o' = vitals o /\
         (health pdata - 25 <= 0 -> kills o' = kills o + 1) /\
         (0 < health pdata - 25 -> kills o' = kills o)) /\
    (Dict.get (owner_id b) ps = None ->
     forall pid, pid <> vid -> Dict.get pid ps' = Dict.get pid ps) /\
    (forall pid,
       pid <> vid -> pid <> owner_id b -> Dict.get pid ps' = Dict.get pid ps).
Proof.
  intros Hf. exists (fst (resolve_bullet b ps)).
  pose proof (resolve_bullet_victim _ _ _ _ Hf) as Hv.
  pose proof (first_victim_In _ _ _ _ Hf) as (Hin & Hne & Halive & _).
  split; [|split; [|split; [|split; [|split]]]].
  - rewrite scan_players_resolve. unfold resolve_bullet. now rewrite Hf.
  - apply resolve_bullet_keys.
  - exists (damaged pdata). split; [exact Hv|]. unfold damaged.
    destruct (Z.leb_spec (health pdata - 25) 0); cbn;
      repeat split; intros; try lia; try assumption; reflexivity.
  - intros o Ho. unfold resolve_bullet. rewrite Hf. cbn [fst].
    destruct (Z.leb_spec (health pdata - 25) 0).
    + exists (credited o). rewrite dict_get_update_same.
      rewrite dict_get_update_other by congruence. rewrite Ho.
      repeat split; intros; try reflexivity; lia.
    + exists o. rewrite dict_get_update_other by congruence.
      repeat split; intros; try assumption; lia.
  - intros Ho pid Hpid. unfold resolve_bullet. rewrite Hf. cbn [fst].
    destruct (health pdata - 25 <=? 0).
    + rewrite dict_get_update.
      destruct (Z.eqb_spec pid (owner_id b)) as [->|Hno].
      * rewrite !dict_get_update_other by congruence. now rewrite Ho.
      * now rewrite dict_get_update_other.
    + now rewrite dict_get_update_other.
  - intros pid Hpid Hno. unfold resolve_bullet. rewrite Hf. cbn [fst].
    destruct (health pdata - 25 <=? 0);
      now rewrite !dict_get_update_other.
Qed.

Lemma hit_damage_and_kill_credit_witness :
  first_victim sample_bullet sample_players
    = Some (1, mkPlayer (200, 100) grey 25 0 false) /\
  exists ps',
    scan_players sample_bullet sample_players sample_players
      = Ok (ps', true) /\
    Dict.keys ps' = Dict.keys sample_players.
Proof.
  split; [reflexivity|].
  destruct (hit_damage_and_kill_credit sample_bullet sample_players 1
              (mkPlayer (200, 100) grey 25 0 false) eq_refl)
    as (ps' & Hscan & Hkeys & _).
  exists ps'. split; assumption.
Defined.

(** ** C2 *)

(** C2: in one pass, when a bullet's turn comes the players are tried in
    the order of the map; the first eligible player it overlaps is the
    only one whose vitals change, and the bullet is left out of the
    resulting list; a bullet that overlaps no eligible player changes
    nobody and stays, unchanged and in its place, in the resulting
    list. *)
Theorem first_overlap_only_and_bullet_spent ps bs1 b bs2 :
  exists ps1 sv1 ps2 hit ps3 sv2,
    collide_loop bs1 ps [] = Ok (ps1, sv1) /\
    scan_players b ps1 ps1 = Ok (ps2, hit) /\
    collide_loop bs2 ps2 [] = Ok (ps3, sv2) /\
    collide_loop (bs1 ++ b :: bs2) ps []
      = Ok (ps3, sv1 ++ (if hit then [] else [b]) ++ sv2) /\
    match first_victim b ps1 with
    | Some (vid, pdata) =>
        hit = true /\
        (exists before after,
           ps1 = before ++ (vid, pdata) :: after /\
           Forall (fun kv =>
                     eligible b (fst kv) (snd kv) && overlaps b (snd kv)
                     = false) before) /\
        Dict.get vid ps2 = Some (damaged pdata) /\
        (forall pid, pid <> vid ->
           option_map vitals (Dict.get pid ps2)
           = option_map vitals (Dict.get pid ps1))
    | None => hit = false /\ ps2 = ps1
    end.
Proof.
  exists (fst (resolve_all bs1 ps)), (snd (resolve_all bs1 ps)).
  set (ps1 := fst (resolve_all bs1 ps)).
  exists (fst (resolve_bullet b ps1)), (snd (resolve_bullet b ps1)).
  set (ps2 := fst (resolve_bullet b ps1)).
  exists (fst (resolve_all bs2 ps2)), (snd (resolve_all bs2 ps2)).
  split; [|split; [|split; [|split]]].
  - now rewrite collide_loop_resolve.
  - rewrite scan_players_resolve. subst ps2.
    now destruct (resolve_bullet b ps1).
  - now rewrite collide_loop_resolve.
  - rewrite collide_loop_resolve, resolve_all_app. cbn [app].
    subst ps2 ps1. destruct (resolve_all bs1 ps) as [q1 s1]. cbn [fst snd].
    simpl resolve_all. destruct (resolve_bullet b q1) as [q2 h].
    cbn [fst snd]. destruct (resolve_all bs2 q2) as [q3 s2]. cbn [fst snd].
    now destruct h.
  - destruct (first_victim b ps1) as [[vid pdata]|] eqn:Hf.
    + split; [|split; [|split]].
      * unfold resolve_bullet. now rewrite Hf.
      * destruct (find_first _ _ _ Hf) as (before & after & Heq & Hall & _).
        exists before, after. split; assumption.
      * now apply resolve_bullet_victim.
      * intros pid Hne.
        now apply resolve_bullet_others with (vid := vid) (pdata := pdata).
    + subst ps2. unfold resolve_bullet. rewrite Hf. split; reflexivity.
Qed.

(** * The atomic steps in closed form *)

(** A message never raises: every subscript is guarded by a membership
    test. *)
Lemma handle_intent_eq act pid odx ody w :
  handle_intent act pid odx ody w =
  Ok (match Dict.get pid (players w) with
      | None => w
      | Some p =>
          if is_dead p then w
          else if is_action "move" act then
            set_players
              (Dict.update pid
                 (set_pos (fst (pos p) + get_default odx,
                           snd (pos p) + get_default ody))
                 (players w)) w
          else if is_action "shoot" act then
            set_bullets
              (bullets w ++
                 [mkBullet (fst (pos p)) (snd (pos p))
                    (get_default odx * 10) (get_default ody * 10) pid]) w
          else w
      end).
Proof.
  unfold handle_intent, Dict.mem, Dict.getitem.
  destruct (Dict.get pid (players w)) as [p|]; cbn [bind].
  - destruct (is_dead p); [reflexivity|].
    destruct (pos p) as [px py]. cbn [fst snd].
    destruct (is_action "move" act); [reflexivity|].
    destruct (is_action "shoot" act); reflexivity.
  - destruct (is_action "move" act); [reflexivity|].
    destruct (is_action "shoot" act); reflexivity.
Qed.

Lemma list_remove_guarded c l :
  exists l',
    (if list_in c l then list_remove c l else Ok l) = Ok l' /\
    (list_in c l = false -> l' = l).
Proof.
  unfold list_in.
  induction l as [|c' l IH]; simpl.
  - exists []. split; reflexivity.
  - destruct (Nat.eqb c c') eqn:Hc; simpl.
    + exists l. split; [reflexivity|discriminate].
    + destruct IH as (l' & Hl & Hsame).
      destruct (existsb (Nat.eqb c) l).
      * rewrite Hl. cbn [bind]. exists (c' :: l'). split; [reflexivity|].
        discriminate.
      * exists (c' :: l). split; reflexivity.
Qed.

(** The [finally] block never raises either. *)
Lemma teardown_eq pid c w :
  exists cs,
    teardown pid c w =
    Ok (set_player_connections
          (if Dict.mem pid (player_connections w)
           then Dict.remove pid (player_connections w)
           else player_connections w)
          (set_client_sockets cs
             (set_players
                (if Dict.mem pid (players w)
                 then Dict.remove pid (players w)
                 else players w) w)),
        [Close c]).
Proof.
  unfold teardown. rewrite !dict_delitem_guarded. cbn [bind].
  destruct (list_remove_guarded c (client_sockets w)) as (cs & Hcs & _).
  exists cs. rewrite Hcs. reflexivity.
Qed.

Lemma game_tick_eq now w :
  let culled := filter in_bounds (map move_bullet (bullets w)) in
  let w3 := set_bullets (snd (resolve_all culled (players w)))
              (set_players (fst (resolve_all culled (players w))) w) in
  game_tick now w = Ok (w3, broadcast_game_state now w3).
Proof.
  unfold game_tick. rewrite check_bullet_collisions_resolve. reflexivity.
Qed.

Lemma resolve_all_keys bs ps :
  Dict.keys (fst (resolve_all bs ps)) = Dict.keys ps.
Proof.
  revert ps. induction bs as [|b bs IH]; intros ps; simpl; [reflexivity|].
  pose proof (resolve_bullet_keys b ps) as Hk.
  destruct (resolve_bullet b ps) as [ps' hit]. cbn [fst] in Hk.
  specialize (IH ps'). destruct (resolve_all bs ps') as [ps'' sv].
  cbn [fst] in *. congruence.
Qed.

Lemma dict_len_keys {V : Type} (d : Dict.t V) :
  Dict.len d = Z.of_nat (List.length (Dict.keys d)).
Proof. unfold Dict.len, Dict.keys. now rewrite length_map. Qed.

(** ** Invariants of the player map along the steps *)

Section Preservation.
Variable P : Z -> player -> Prop.
Hypothesis P_set_pos : forall k v xy, P k v -> P k (set_pos xy v).
Hypothesis P_credited : forall k v, P k v -> P k (credited v).
Hypothesis P_damaged :
  forall k v, P k v -> is_dead v = false -> P k (damaged v).

Local Abbreviation all_players := (Forall (fun kv => P (fst kv) (snd kv))).

Lemma resolve_bullet_preserves b ps :
  all_players ps -> all_players (fst (resolve_bullet b ps)).
Proof.
  intros Hall. unfold resolve_bullet.
  destruct (first_victim b ps) as [[vid pdata]|] eqn:Hf; [|exact Hall].
  apply first_victim_In in Hf as (Hin & _ & Halive & _).
  assert (Hp : P vid pdata).
  { rewrite Forall_forall in Hall. exact (Hall _ Hin). }
  assert (Hd : all_players (Dict.update vid (fun _ => damaged pdata) ps)).
  { apply dict_Forall_update; [exact Hall|]. intros _ _. cbn.
    now apply P_damaged. }
  destruct (health pdata - 25 <=? 0); cbn [fst]; [|exact Hd].
  apply dict_Forall_update; [exact Hd|]. intros v Hv. cbn in *.
  now apply P_credited.
Qed.

Lemma resolve_all_preserves bs ps :
  all_players ps -> all_players (fst (resolve_all bs ps)).
Proof.
  revert ps. induction bs as [|b bs IH]; intros ps Hall; simpl; [exact Hall|].
  pose proof (resolve_bullet_preserves b ps Hall) as Hb.
  destruct (resolve_bullet b ps) as [ps' hit]. cbn [fst] in Hb.
  specialize (IH ps' Hb). now destruct (resolve_all bs ps').
Qed.

Lemma game_tick_preserves now w w' out :
  all_players (players w) -> game_tick now w = Ok (w', out) ->
  all_players (players w').
Proof.
  intros Hall. rewrite game_tick_eq. intros [= <- _]. cbn.
  now apply resolve_all_preserves.
Qed.

Lemma handle_message_preserves m w w' :
  all_players (players w) -> handle_message m w = Ok w' ->
  all_players (players w').
Proof.
  intros Hall. unfold handle_message.
  destruct (player_id m) as [pid|]; [|now intros [= <-]].
  rewrite handle_intent_eq.
  destruct (Dict.get pid (players w)) as [p|]; [|now intros [= <-]].
  destruct (is_dead p); [now intros [= <-]|].
  destruct (is_action "move" (action m)).
  - intros [= <-]. cbn. apply dict_Forall_update; [exact Hall|].
    intros v Hv. cbn in *. now apply P_set_pos.
  - destruct (is_action "shoot" (action m)); now intros [= <-].
Qed.

Lemma teardown_preserves pid c w w' out :
  all_players (players w) -> teardown pid c w = Ok (w', out) ->
  all_players (players w').
Proof.
  intros Hall. destruct (teardown_eq pid c w) as (cs & ->).
  intros [= <- _]. cbn.
  destruct (Dict.mem pid (players w)); [|exact Hall].
  now apply dict_Forall_remove.
Qed.

Lemma accept_preserves c col now w :
  all_players (players w) -> P (next_player_id w) (new_player col) ->
  all_players (players (fst (accept c col now w))).
Proof.
  intros Hall Hnew. unfold accept.
  destruct (Dict.len (players w) >=? MAX_PLAYERS); [exact Hall|].
  cbn. assert (Hset : all_players
            (Dict.set (next_player_id w) (new_player col) (players w))).
  { apply dict_Forall_set; [exact Hall|exact Hnew]. }
  destruct (game_start_time w); [exact Hset|].
  now destruct (Dict.len _ >=? 4).
Qed.
End Preservation.

Lemma run_events_invariant (I : world -> Prop) :
  (forall e w w' out, I w -> run_event e w = Ok (w', out) -> I w') ->
  forall es w w', I w -> run_events es w = Ok w' -> I w'.
Proof.
  intros Hstep es. induction es as [|e es IH]; intros w w' Hw; simpl.
  - now intros [= <-].
  - destruct (run_event e w) as [[w1 out]|] eqn:He; [|discriminate].
    cbn [bind]. apply IH. now apply (Hstep e w w1 out).
Qed.

Lemma run_events_app es1 es2 w :
  run_events (es1 ++ es2) w = w1 <- run_events es1 w ;; run_events es2 w1.
Proof.
  revert w. induction es1 as [|e es1 IH]; intros w; simpl; [reflexivity|].
  destruct (run_event e w) as [[w1 out]|]; [|reflexivity].
  cbn [bind]. apply IH.
Qed.

(** Every step preserves a property of the player records that moving,
    crediting and damaging a live player preserve and that a fresh
    player has. *)
Lemma run_event_preserves (P : Z -> player -> Prop) e w w' out :
  (forall k v xy, P k v -> P k (set_pos xy v)) ->
  (forall k v, P k v -> P k (credited v)) ->
  (forall k v, P k v -> is_dead v = false -> P k (damaged v)) ->
  (forall col, P (next_player_id w) (new_player col)) ->
  Forall (fun kv => P (fst kv) (snd kv)) (players w) ->
  run_event e w = Ok (w', out) ->
  Forall (fun kv => P (fst kv) (snd kv)) (players w').
Proof.
  intros Hpos Hcred Hdam Hnew Hall.
  destruct e as [c col now|m|pid c|now]; simpl.
  - intros [= Heq]. apply (f_equal fst) in Heq. cbn [fst] in Heq.
    rewrite <- Heq. now apply accept_preserves.
  - destruct (handle_message m w) as [w1|] eqn:Hm; [|discriminate].
    cbn [bind]. intros [= <- _].
    now apply (handle_message_preserves P Hpos m w w1).
  - now apply teardown_preserves.
  - now apply game_tick_preserves.
Qed.

Lemma player_ok_damaged v :
  player_ok v -> is_dead v = false -> player_ok (damaged v).
Proof.
  unfold player_ok, damaged. intros [Hr Hiff] Halive.
  destruct (Z.leb_spec (health v - 25) 0); cbn.
  - split; [lia|]. split; reflexivity.
  - split; [lia|]. rewrite Halive. split; [lia|discriminate].
Qed.

(** ** C3 *)

(** C3: in every world reached from the empty one by admissions,
    messages, teardowns and ticks, every player's health lies in
    [0,100], and it is 0 exactly when the player's [is_dead] flag is
    set. *)
Theorem health_in_range_and_zero_iff_dead es w pid p :
  run_events es initial_world = Ok w ->
  Dict.get pid (players w) = Some p ->
  0 <= health p <= 100 /\ (health p = 0 <-> is_dead p = true).
Proof.
  intros Hrun Hget.
  assert (Hall : Forall (fun kv => player_ok (snd kv)) (players w)).
  { revert Hrun.
    apply (run_events_invariant
             (fun w => Forall (fun kv => player_ok (snd kv)) (players w)));
      [|constructor].
    intros e w0 w1 out Hinv He.
    apply (run_event_preserves (fun _ => player_ok) e w0 w1 out);
      try assumption.
    - intros _ v xy Hv. exact Hv.
    - intros _ v Hv. exact Hv.
    - intros _ v. apply player_ok_damaged.
    - intros col. unfold player_ok. cbn. split; [lia|].
      split; [lia|discriminate]. }
  rewrite Forall_forall in Hall.
  exact (Hall _ (dict_get_In _ _ _ Hget)).
Qed.

Lemma health_in_range_and_zero_iff_dead_witness :
  exists w p,
    run_events sample_trace initial_world = Ok w /\
    Dict.get 1 (players w) = Some p /\
    health p = 75 /\
    0 <= health p <= 100 /\ (health p = 0 <-> is_dead p = true).
Proof.
  eexists. eexists.
  split; [vm_compute; reflexivity|].
  split; [reflexivity|].
  split; [reflexivity|].
  eapply (health_in_range_and_zero_iff_dead sample_trace _ 1);
    vm_compute; reflexivity.
Defined.

(** * The tick *)

Lemma in_bounds_spec b : in_bounds b = true <-> inside_arena b.
Proof.
  unfold in_bounds, inside_arena.
  rewrite !andb_true_iff, !Z.leb_le. tauto.
Qed.

Lemma resolve_all_survivors bs ps b :
  In b (snd (resolve_all bs ps)) -> In b bs.
Proof.
  revert ps. induction bs as [|b0 bs IH]; intros ps; simpl; [tauto|].
  destruct (resolve_bullet b0 ps) as [ps' hit].
  specialize (IH ps'). destruct (resolve_all bs ps') as [ps'' sv].
  cbn [snd] in *. destruct hit; simpl; intuition.
Qed.

(** ** C4 *)

(** C4: one tick advances every bullet by its velocity once, then drops
    the bullets outside the closed rectangle [0,800] x [0,600], then
    resolves collisions on what is left, then sends the snapshot of the
    resulting world to every registered socket; so every bullet of a
    snapshot lies inside the rectangle. *)
Theorem tick_order_and_snapshot_in_bounds now w :
  let moved := map move_bullet (bullets w) in
  let culled := filter in_bounds moved in
  exists w3 out,
    game_tick now w = Ok (w3, out) /\
    (forall b,
       move_bullet b =
       mkBullet (b_x b + b_dx b) (b_y b + b_dy b) (b_dx b) (b_dy b)
                (owner_id b)) /\
    (forall b, In b culled <-> In b moved /\ inside_arena b) /\
    check_bullet_collisions (set_bullets culled w) = Ok w3 /\
    out = map (fun cs => Send cs (GameState (players w3) (bullets w3)
                                    (time_left now w3)))
              (client_sockets w3) /\
    (forall b, In b (bullets w3) -> In b culled) /\
    (forall c ps bs t,
       In (Send c (GameState ps bs t)) out -> Forall inside_arena bs).
Proof.
  intros moved culled.
  pose proof (game_tick_eq now w) as Htick. cbv zeta in Htick.
  fold moved culled in Htick.
  set (w3 := set_bullets (snd (resolve_all culled (players w)))
               (set_players (fst (resolve_all culled (players w))) w))
    in Htick.
  assert (Hsub : forall b, In b (bullets w3) -> In b culled).
  { intros b Hb. cbn in Hb. now apply resolve_all_survivors in Hb. }
  assert (Hcull : forall b, In b culled <-> In b moved /\ inside_arena b).
  { intros b. unfold culled. rewrite filter_In, in_bounds_spec. tauto. }
  exists w3, (broadcast_game_state now w3).
  split; [exact Htick|].
  split; [reflexivity|].
  split; [exact Hcull|].
  split; [now rewrite check_bullet_collisions_resolve|].
  split; [reflexivity|].
  split; [exact Hsub|].
  intros c ps bs t Hin. unfold broadcast_game_state, snapshot in Hin.
  apply in_map_iff in Hin as (cs & [= _ _ <- _] & _).
  apply Forall_forall. intros b Hb. apply Hsub in Hb.
  now apply Hcull in Hb.
Qed.

(** * Scenario A *)

(** ** C5 *)

(** C5 as stated fails: with owner 0 and victim 1, after the three shots
    and one tick the victim's health is not 75. *)
Lemma scenario_A_health_is_not_75 :
  ~ (exists w v o,
       scenario_A_run 0 1 grey grey true 1%Q = Ok w /\
       Dict.get 1 (players w) = Some v /\ health v = 75 /\
       Dict.get 0 (players w) = Some o /\ kills o = 0).
Proof.
  intros (w & v & o & Hrun & Hv & Hh & _).
  vm_compute in Hrun. injection Hrun as <-.
  vm_compute in Hv. injection Hv as <-.
  discriminate Hh.
Qed.

(** C5, amended: in a world of exactly two players, the owner at (0,0)
    and the victim at (10,0), both with health 100 and no kills, three
    shoot intents of the owner with direction (1,0) followed by one tick
    leave the victim alive with health 25, since each of the three
    bullets hits in that tick, the owner with 0 kills, and no bullet. *)
Theorem scenario_A_three_shots_one_tick owner victim co cv owner_first now :
  owner <> victim ->
  exists w v o,
    scenario_A_run owner victim co cv owner_first now = Ok w /\
    Dict.get victim (players w) = Some v /\
    health v = 25 /\ is_dead v = false /\
    Dict.get owner (players w) = Some o /\
    kills o = 0 /\ health o = 100 /\
    bullets w = [].
Proof.
  intros Hne.
  assert (H1 : (owner =? victim) = false) by now apply Z.eqb_neq.
  assert (H2 : (victim =? owner) = false) by (apply Z.eqb_neq; congruence).
  unfold scenario_A_run, scenario_A, shoot_right.
  cbn [run_events run_event handle_message player_id action m_dx m_dy].
  destruct owner_first;
    repeat (rewrite handle_intent_eq;
            cbn -[Z.add Z.mul Z.eqb]; rewrite ?Z.eqb_refl, ?H1, ?H2;
            cbn -[Z.eqb]);
    rewrite game_tick_eq;
    repeat (unfold resolve_bullet, first_victim, eligible, damaged, credited;
            cbn -[Z.eqb]; rewrite ?Z.eqb_refl, ?H1, ?H2);
    do 3 eexists; (split; [reflexivity|]);
    cbn -[Z.eqb]; rewrite ?Z.eqb_refl, ?H1, ?H2;
    repeat split.
Qed.

Lemma scenario_A_three_shots_one_tick_witness :
  7 <> 3 /\
  exists w v o,
    scenario_A_run 7 3 grey grey false 1%Q = Ok w /\
    Dict.get 3 (players w) = Some v /\
    health v = 25 /\ is_dead v = false /\
    Dict.get 7 (players w) = Some o /\
    kills o = 0 /\ health o = 100 /\
    bullets w = [].
Proof.
  split; [lia|].
  apply (scenario_A_three_shots_one_tick 7 3 grey grey false 1%Q). lia.
Defined.

(** * Stale intents, teardown and admission control *)

Lemma dict_mem_remove_same {V : Type} (k : Z) (d : Dict.t V) :
  Dict.wf d -> Dict.mem k (Dict.remove k d) = false.
Proof.
  unfold Dict.wf, Dict.mem.
  induction d as [|[k0 v0] d IH]; simpl; [reflexivity|].
  intros Hnd. inversion Hnd as [|? ? Hnotin Hnd']; subst.
  destruct (Z.eqb_spec k k0) as [->|Hne].
  - now rewrite dict_get_not_key.
  - simpl. destruct (Z.eqb_spec k k0); [congruence|]. now apply IH.
Qed.

(** ** C6 *)

(** C6: a message, in particular a move or a shoot, whose player id is
    not in the player map or names a dead player leaves the whole world
    as it is and raises nothing; the teardown of a player id that is not
    in the map raises nothing and leaves the player map (and the bullets,
    the identity counter and the clock) as they are; and after one
    teardown a second one of the same player changes no player. *)
Theorem stale_intent_and_absent_teardown_are_noops m w pid c :
  stale_sender m w ->
  Dict.mem pid (players w) = false ->
  handle_message m w = Ok w /\
  (exists w',
     teardown pid c w = Ok (w', [Close c]) /\
     players w' = players w /\ bullets w' = bullets w /\
     next_player_id w' = next_player_id w /\
     game_start_time w' = game_start_time w) /\
  (forall w0,
     Dict.wf (players w0) ->
     exists w1 w2,
       teardown pid c w0 = Ok (w1, [Close c]) /\
       teardown pid c w1 = Ok (w2, [Close c]) /\
       players w2 = players w1).
Proof.
  intros Hstale Habs. split; [|split].
  - unfold handle_message. unfold stale_sender in Hstale.
    destruct (player_id m) as [k|]; [|reflexivity].
    rewrite handle_intent_eq.
    destruct (Dict.get k (players w)) as [p|]; [|reflexivity].
    now rewrite Hstale.
  - destruct (teardown_eq pid c w) as (cs & ->). rewrite Habs.
    eexists. split; [reflexivity|]. cbn. repeat split.
  - intros w0 Hwf.
    destruct (teardown_eq pid c w0) as (cs & ->).
    eexists. 
    match goal with |- exists w2, Ok (?w1, _) = _ /\ _ =>
      destruct (teardown_eq pid c w1) as (cs' & ->) end.
    eexists. split; [reflexivity|]. split; [reflexivity|]. cbn.
    destruct (Dict.mem pid (players w0)) eqn:Hm.
    + now rewrite dict_mem_remove_same.
    + now rewrite Hm.
Qed.

Lemma stale_intent_and_absent_teardown_are_noops_witness :
  stale_sender stray_shot sample_world /\
  Dict.mem 9 (players sample_world) = false /\
  handle_message stray_shot sample_world = Ok sample_world /\
  exists w',
    teardown 9 7%nat sample_world = Ok (w', [Close 7%nat]) /\
    players w' = players sample_world.
Proof.
  assert (Hs : stale_sender stray_shot sample_world) by exact I.
  assert (Ha : Dict.mem 9 (players sample_world) = false) by reflexivity.
  destruct (stale_intent_and_absent_teardown_are_noops
              stray_shot sample_world 9 7%nat Hs Ha)
    as (Hmsg & (w' & Htd & Hps & _) & _).
  split; [exact Hs|]. split; [exact Ha|]. split; [exact Hmsg|].
  exists w'. split; assumption.
Defined.

(** ** C8 *)

(** C8: an admission attempted while the player count is at least the
    maximum of 5 sends the new connection one [server_full] message,
    closes it, and leaves the whole world (player map, bullets,
    connection registry, identity counter, clock) as it is. *)
Theorem full_server_rejects_without_state_change c col now w :
  Dict.len (players w) >= MAX_PLAYERS ->
  MAX_PLAYERS = 5 /\
  accept c col now w = (w, [Send c ServerFull; Close c]).
Proof.
  intros Hfull. split; [reflexivity|]. unfold accept.
  destruct (Z.geb_spec (Dict.len (players w)) MAX_PLAYERS); [reflexivity|lia].
Qed.

Lemma full_server_rejects_without_state_change_witness :
  Dict.len (players full_world) >= MAX_PLAYERS /\
  accept 5%nat grey 2%Q full_world
    = (full_world, [Send 5%nat ServerFull; Close 5%nat]).
Proof.
  assert (H : Dict.len (players full_world) >= MAX_PLAYERS)
    by (vm_compute; discriminate).
  split; [exact H|].
  exact (proj2 (full_server_rejects_without_state_change
                  5%nat grey 2%Q full_world H)).
Defined.

(** * The session clock *)

Lemma handle_message_frame m w w' :
  handle_message m w = Ok w' ->
  Dict.keys (players w') = Dict.keys (players w) /\
  next_player_id w' = next_player_id w /\
  game_start_time w' = game_start_time w.
Proof.
  unfold handle_message.
  destruct (player_id m) as [pid|]; [|now intros [= <-]].
  rewrite handle_intent_eq.
  destruct (Dict.get pid (players w)) as [p|]; [|now intros [= <-]].
  destruct (is_dead p); [now intros [= <-]|].
  destruct (is_action "move" (action m)).
  - intros [= <-]. unfold set_players.
    cbn [players next_player_id game_start_time].
    now rewrite dict_keys_update.
  - destruct (is_action "shoot" (action m)); now intros [= <-].
Qed.

Lemma game_tick_frame now w w' out :
  game_tick now w = Ok (w', out) ->
  Dict.keys (players w') = Dict.keys (players w) /\
  next_player_id w' = next_player_id w /\
  game_start_time w' = game_start_time w /\
  out = broadcast_game_state now w'.
Proof.
  rewrite game_tick_eq. intros [= <- <-]. unfold set_bullets, set_players.
  cbn [players next_player_id game_start_time].
  now rewrite resolve_all_keys.
Qed.

Lemma teardown_frame pid c w w' out :
  teardown pid c w = Ok (w', out) ->
  players w' = (if Dict.mem pid (players w)
                then Dict.remove pid (players w) else players w) /\
  next_player_id w' = next_player_id w /\
  game_start_time w' = game_start_time w.
Proof.
  destruct (teardown_eq pid c w) as (cs & ->). intros [= <- _].
  cbn. repeat split.
Qed.

(** How a step moves the player count and the session clock. *)
Lemma run_event_clock e w w' out :
  run_event e w = Ok (w', out) ->
  Dict.len (players w') <= Dict.len (players w) + 1 /\
  match game_start_time w with
  | Some start => game_start_time w' = Some start
  | None =>
      (game_start_time w' = None /\
       (Dict.len (players w') < 4 \/
        Dict.len (players w') <= Dict.len (players w))) \/
      (exists c col now,
         e = Accept c col now /\ game_start_time w' = Some now /\
         Dict.len (players w') >= 4)
  end.
Proof.
  destruct e as [c col now|m|pid c|now]; simpl.
  - unfold accept.
    destruct (Dict.len (players w) >=? MAX_PLAYERS).
    + intros [= <- _]. split; [lia|].
      destruct (game_start_time w); [reflexivity|]. left. split; [easy|lia].
    + cbn.
      pose proof (dict_len_set (next_player_id w) (new_player col)
                    (players w)) as Hlen.
      destruct (game_start_time w) as [start|] eqn:Hs.
      * intros [= <- _]. cbn. split; [lia|assumption].
      * destruct (Z.geb_spec
                    (Dict.len (Dict.set (next_player_id w) (new_player col)
                                 (players w))) 4);
          intros [= <- _]; cbn; (split; [lia|]).
        -- right. exists c, col, now. repeat split. lia.
        -- left. split; [assumption|lia].
  - destruct (handle_message m w) as [w1|] eqn:Hm; [|discriminate].
    cbn [bind]. intros [= <- _].
    apply handle_message_frame in Hm as (Hk & _ & Hs).
    rewrite !dict_len_keys, Hk, Hs. split; [lia|].
    destruct (game_start_time w); [reflexivity|]. left. split; [easy|lia].
  - intros Ht. apply teardown_frame in Ht as (Hp & _ & Hs).
    rewrite Hs, Hp.
    assert (Hle : Dict.len (if Dict.mem pid (players w)
                            then Dict.remove pid (players w)
                            else players w) <= Dict.len (players w)).
    { destruct (Dict.mem pid (players w)); [apply dict_len_remove|lia]. }
    split; [lia|].
    destruct (game_start_time w); [reflexivity|]. left. split; [easy|lia].
  - intros Ht. apply game_tick_frame in Ht as (Hk & _ & Hs & _).
    rewrite !dict_len_keys, Hk, Hs. split; [lia|].
    destruct (game_start_time w); [reflexivity|]. left. split; [easy|lia].
Qed.

Lemma clock_unset_below_threshold es w :
  run_events es initial_world = Ok w ->
  game_start_time w = None -> Dict.len (players w) < 4.
Proof.
  apply (run_events_invariant
           (fun w => game_start_time w = None -> Dict.len (players w) < 4)).
  - intros e w0 w1 out Hinv He Hnone.
    apply run_event_clock in He as (Hlen & Hclock).
    destruct (game_start_time w0) as [start|]; [congruence|].
    specialize (Hinv eq_refl).
    destruct Hclock as [(_ & [Hlt|Hle])|(c & col & now & _ & Hsome & _)];
      [assumption|lia|congruence].
  - intros _. cbn. lia.
Qed.

(** ** C7 *)

(** C7: the start timestamp of the session is set at most once, by the
    first admission that brings the player count to 4: while it is unset
    fewer than 4 players are registered, a step sets it only if it is an
    admission that takes the count from 3 to 4, and once set no step
    changes it.  A tick broadcasts [time_left]; after the start this is
    max(0, 300 - (now - start)), which is never negative, and before the
    start it is the full 300. *)
Theorem session_clock_set_once_and_time_left es w :
  run_events es initial_world = Ok w ->
  (game_start_time w = None ->
   Dict.len (players w) < 4 /\
   forall now, time_left now w = inject_Z 300) /\
  (forall start,
     game_start_time w = Some start ->
     forall now,
       time_left now w = Qmax 0 (inject_Z 300 - (now - start)) /\
       (0 <= time_left now w)%Q) /\
  (forall e w' out,
     run_event e w = Ok (w', out) ->
     match game_start_time w with
     | Some start => game_start_time w' = Some start
     | None =>
         game_start_time w' = None \/
         exists c col now,
           e = Accept c col now /\ game_start_time w' = Some now /\
           Dict.len (players w) = 3 /\ Dict.len (players w') = 4
     end) /\
  (forall now w' out,
     run_event (Tick now) w = Ok (w', out) ->
     forall c ps bs t,
       In (Send c (GameState ps bs t)) out -> t = time_left now w).
Proof.
  intros Hrun. split; [|split; [|split]].
  - intros Hnone. split; [now apply (clock_unset_below_threshold es)|].
    intros now. unfold time_left. now rewrite Hnone.
  - intros start Hsome now. unfold time_left. rewrite Hsome.
    split; [reflexivity|]. apply Q.le_max_l.
  - intros e w' out He.
    apply run_event_clock in He as (Hlen & Hclock).
    destruct (game_start_time w) as [start|] eqn:Hs; [assumption|].
    pose proof (clock_unset_below_threshold es w Hrun Hs) as Hlt.
    destruct Hclock as [(Hn & _)|(c & col & now & -> & Hsome & Hge)].
    + now left.
    + right. exists c, col, now. repeat split; try assumption; lia.
  - intros now w' out Ht c ps bs t Hin. simpl in Ht.
    apply game_tick_frame in Ht as (_ & _ & Hs & ->).
    unfold broadcast_game_state, snapshot in Hin.
    apply in_map_iff in Hin as (cs & [= _ _ _ <-] & _).
    unfold time_left. now rewrite Hs.
Qed.

Lemma session_clock_set_once_and_time_left_witness :
  exists w,
    run_events [Accept 0%nat grey 0%Q; Accept 1%nat grey 1%Q;
                Accept 2%nat grey 2%Q; Accept 3%nat grey 3%Q]
               initial_world = Ok w /\
    game_start_time w = Some 3%Q /\
    (0 <= time_left 500%Q w)%Q.
Proof.
  eexists. split; [vm_compute; reflexivity|]. split; [reflexivity|].
  match goal with
  | |- (0 <= time_left _ ?w)%Q =>
      assert (Hrun : run_events
                       [Accept 0%nat grey 0%Q; Accept 1%nat grey 1%Q;
                        Accept 2%nat grey 2%Q; Accept 3%nat grey 3%Q]
                       initial_world = Ok w)
        by (vm_compute; reflexivity)
  end.
  destruct (session_clock_set_once_and_time_left _ _ Hrun)
    as (_ & Hset & _).
  exact (proj2 (Hset 3%Q eq_refl 500%Q)).
Defined.

(** * Identities are fresh and keys are unique *)

Lemma dict_mem_keys {V : Type} (k : Z) (d : Dict.t V) :
  Dict.mem k d = true <-> In k (Dict.keys d).
Proof.
  unfold Dict.mem, Dict.keys.
  induction d as [|[k0 v0] d IH]; simpl; [easy|].
  destruct (Z.eqb_spec k k0) as [->|Hne].
  - split; [now left|reflexivity].
  - rewrite IH. split; [now right|]. intros [H|H]; [congruence|assumption].
Qed.

Lemma dict_keys_set {V : Type} (k : Z) (v : V) (d : Dict.t V) :
  Dict.keys (Dict.set k v d) =
  if Dict.mem k d then Dict.keys d else Dict.keys d ++ [k].
Proof.
  unfold Dict.mem, Dict.keys.
  induction d as [|[k0 v0] d IH]; simpl; [reflexivity|].
  destruct (k =? k0); simpl; [reflexivity|].
  rewrite IH. now destruct (Dict.get k d).
Qed.

Lemma dict_wf_set {V : Type} (k : Z) (v : V) (d : Dict.t V) :
  Dict.wf d -> Dict.wf (Dict.set k v d).
Proof.
  unfold Dict.wf. intros Hnd. rewrite dict_keys_set.
  destruct (Dict.mem k d) eqn:Hm; [assumption|].
  apply NoDup_app; [assumption|repeat constructor; easy|].
  intros a Ha [<-|[]]. apply dict_mem_keys in Ha. congruence.
Qed.

Lemma dict_keys_remove_incl {V : Type} (k k' : Z) (d : Dict.t V) :
  In k' (Dict.keys (Dict.remove k d)) -> In k' (Dict.keys d).
Proof.
  unfold Dict.keys.
  induction d as [|[k0 v0] d IH]; simpl; [tauto|].
  destruct (k =? k0); simpl; intuition.
Qed.

Lemma dict_wf_remove {V : Type} (k : Z) (d : Dict.t V) :
  Dict.wf d -> Dict.wf (Dict.remove k d).
Proof.
  unfold Dict.wf.
  induction d as [|[k0 v0] d IH]; simpl; [easy|].
  intros Hnd. inversion Hnd as [|? ? Hnotin Hnd']; subst.
  destruct (k =? k0); [assumption|].
  simpl. constructor; [|now apply IH].
  intros Hin. apply Hnotin. now apply dict_keys_remove_incl in Hin.
Qed.

Lemma run_event_wf e w w' out :
  Dict.wf (players w) -> run_event e w = Ok (w', out) ->
  Dict.wf (players w').
Proof.
  intros Hwf. destruct e as [c col now|m|pid c|now]; simpl.
  - unfold accept.
    destruct (Dict.len (players w) >=? MAX_PLAYERS);
      [now intros [= <- _]|].
    cbn. destruct (game_start_time w);
      [|destruct (Dict.len _ >=? 4)]; intros [= <- _];
      cbn; now apply dict_wf_set.
  - destruct (handle_message m w) as [w1|] eqn:Hm; [|discriminate].
    cbn [bind]. intros [= <- _].
    apply handle_message_frame in Hm as (Hk & _).
    unfold Dict.wf. now rewrite Hk.
  - intros Ht. apply teardown_frame in Ht as (-> & _).
    destruct (Dict.mem pid (players w)); [now apply dict_wf_remove|easy].
  - intros Ht. apply game_tick_frame in Ht as (Hk & _).
    unfold Dict.wf. now rewrite Hk.
Qed.

Lemma reachable_wf es w :
  run_events es initial_world = Ok w -> Dict.wf (players w).
Proof.
  apply (run_events_invariant (fun w => Dict.wf (players w))).
  - intros e w0 w1 out. apply run_event_wf.
  - constructor.
Qed.

(** Every key of the player map was handed out by the counter. *)
Lemma run_event_fresh e w w' out :
  Forall (fun kv => fst kv < next_player_id w) (players w) ->
  run_event e w = Ok (w', out) ->
  next_player_id w <= next_player_id w' /\
  Forall (fun kv => fst kv < next_player_id w') (players w').
Proof.
  intros Hall. destruct e as [c col now|m|pid c|now]; simpl.
  - unfold accept.
    destruct (Dict.len (players w) >=? MAX_PLAYERS).
    + intros [= <- _]. split; [lia|assumption].
    + assert (Hset : Forall (fun kv => fst kv < next_player_id w + 1)
                (Dict.set (next_player_id w) (new_player col) (players w))).
      { apply dict_Forall_set; [|cbn; lia].
        eapply Forall_impl; [|exact Hall]. cbn. intros; lia. }
      cbn. destruct (game_start_time w);
        [|destruct (Dict.len _ >=? 4)]; intros [= <- _];
        cbn; (split; [lia|exact Hset]).
  - destruct (handle_message m w) as [w1|] eqn:Hm; [|discriminate].
    cbn [bind]. intros [= <- _].
    pose proof (handle_message_frame _ _ _ Hm) as (_ & Hn & _).
    rewrite Hn. split; [lia|].
    apply (handle_message_preserves
             (fun k _ => k < next_player_id w)) with (m := m) (w := w);
      auto.
  - intros Ht. pose proof (teardown_frame _ _ _ _ _ Ht) as (_ & Hn & _).
    rewrite Hn. split; [lia|].
    now apply (teardown_preserves (fun k _ => k < next_player_id w))
      with (pid := pid) (c := c) (w := w) (out := out).
  - intros Ht. pose proof (game_tick_frame _ _ _ _ Ht) as (_ & Hn & _).
    rewrite Hn. split; [lia|].
    apply (game_tick_preserves (fun k _ => k < next_player_id w))
      with (now := now) (w := w) (out := out); auto.
Qed.

Lemma reachable_fresh es w :
  run_events es initial_world = Ok w ->
  Forall (fun kv => fst kv < next_player_id w) (players w).
Proof.
  apply (run_events_invariant
           (fun w => Forall (fun kv => fst kv < next_player_id w)
                       (players w))).
  - intros e w0 w1 out Hinv He. now apply (run_event_fresh e w0 w1 out).
  - constructor.
Qed.

(** * Death *)

(** A step keeps every record filed under [pid] dead and at most at
    health [h], as long as [pid] is an identity already handed out. *)
Lemma run_event_keeps_dead pid h e w w' out :
  pid < next_player_id w ->
  Forall (fun kv => fst kv = pid ->
                    is_dead (snd kv) = true /\ health (snd kv) <= h)
         (players w) ->
  run_event e w = Ok (w', out) ->
  Forall (fun kv => fst kv = pid ->
                    is_dead (snd kv) = true /\ health (snd kv) <= h)
         (players w').
Proof.
  intros Hlt Hall He.
  apply (run_event_preserves
           (fun k v => k = pid -> is_dead v = true /\ health v <= h)
           e w w' out); try assumption.
  - intros k v xy Hv Hk. exact (Hv Hk).
  - intros k v Hv Hk. exact (Hv Hk).
  - intros k v Hv Halive Hk. destruct (Hv Hk) as [Hd _]. congruence.
  - intros col Hk. lia.
Qed.

(** ** C9 *)

(** C9: once a player of a reachable world is dead, then after any
    further admissions, messages, teardowns and ticks the player, if
    still in the map, is dead and its health has not gone up: no step
    revives anybody. *)
Theorem death_is_permanent es w pid p es' w' p' :
  run_events es initial_world = Ok w ->
  Dict.get pid (players w) = Some p ->
  is_dead p = true ->
  run_events es' w = Ok w' ->
  Dict.get pid (players w') = Some p' ->
  is_dead p' = true /\ health p' <= health p.
Proof.
  intros Hrun Hget Hdead Hrun' Hget'.
  pose proof (reachable_wf es w Hrun) as Hwf.
  pose proof (reachable_fresh es w Hrun) as Hfresh.
  set (I := fun w0 : world =>
              (pid < next_player_id w0 /\
               Forall (fun kv => fst kv < next_player_id w0) (players w0)) /\
              Forall (fun kv => fst kv = pid ->
                                is_dead (snd kv) = true /\
                                health (snd kv) <= health p)
                     (players w0)).
  assert (HI : I w').
  { apply (run_events_invariant I) with (es := es') (w := w);
      [| |exact Hrun'].
    - intros e w0 w1 out [[Hlt Hfr] Hd] He.
      pose proof (run_event_fresh e w0 w1 out Hfr He) as [Hmono Hfr'].
      split; [split; [lia|exact Hfr']|].
      now apply (run_event_keeps_dead pid (health p) e w0 w1 out).
    - split; [split; [|exact Hfresh]|].
      + rewrite Forall_forall in Hfresh.
        exact (Hfresh _ (dict_get_In _ _ _ Hget)).
      + apply Forall_forall. intros [k v] Hin Hk. cbn in *. subst k.
        apply (dict_In_get _ _ _ Hwf) in Hin.
        assert (v = p) by congruence. subst v. split; [assumption|lia]. }
  destruct HI as [_ Hd]. rewrite Forall_forall in Hd.
  exact (Hd _ (dict_get_In _ _ _ Hget') eq_refl).
Qed.

Lemma death_is_permanent_witness :
  exists w p w' p',
    run_events kill_trace initial_world = Ok w /\
    Dict.get 1 (players w) = Some p /\
    is_dead p = true /\
    run_events after_death_trace w = Ok w' /\
    Dict.get 1 (players w') = Some p' /\
    is_dead p' = true /\ health p' <= health p.
Proof.
  do 4 eexists.
  split; [vm_compute; reflexivity|].
  split; [reflexivity|].
  split; [reflexivity|].
  split; [vm_compute; reflexivity|].
  split; [reflexivity|].
  eapply (death_is_permanent kill_trace _ 1 _ after_death_trace _ _);
    vm_compute; reflexivity.
Defined.

(** * Absent payload fields *)

(** A bullet that has no victim keeps having none while others hit:
    players do not move during a pass and only ever die. *)
Lemma no_victim_after_pass b bs ps :
  first_victim b ps = None ->
  first_victim b (fst (resolve_all bs ps)) = None.
Proof.
  unfold first_victim. rewrite !find_none_Forall. intros Hall.
  apply (resolve_all_preserves
           (fun k v => eligible b k v && overlaps b v = false));
    [| |exact Hall].
  - intros k v Hv. exact Hv.
  - intros k v Hv Halive. revert Hv. unfold eligible, overlaps, damaged.
    rewrite Halive.
    destruct (health v - 25 <=? 0); cbn [pos is_dead negb];
      [|exact (fun H => H)].
    intros _. now rewrite andb_false_r.
Qed.

Lemma no_victim_survives b bs ps :
  In b bs -> first_victim b ps = None -> In b (snd (resolve_all bs ps)).
Proof.
  intros Hin Hnone. apply in_split in Hin as (l1 & l2 & ->).
  rewrite resolve_all_app.
  pose proof (no_victim_after_pass b l1 ps Hnone) as Hn1.
  destruct (resolve_all l1 ps) as [ps1 sv1]. cbn [fst] in Hn1.
  simpl resolve_all. unfold resolve_bullet at 1. rewrite Hn1.
  destruct (resolve_all l2 ps1) as [ps2 sv2]. cbn [snd].
  apply in_or_app. right. now left.
Qed.

(** A bullet at rest inside the arena that overlaps no eligible player
    is still in the world after a tick. *)
Lemma resting_bullet_persists now w b :
  In b (bullets w) -> move_bullet b = b -> inside_arena b ->
  first_victim b (players w) = None ->
  exists w' out, game_tick now w = Ok (w', out) /\ In b (bullets w').
Proof.
  intros Hin Hrest Harena Hnone.
  pose proof (game_tick_eq now w) as Htick. cbv zeta in Htick.
  do 2 eexists. split; [exact Htick|]. cbn [bullets set_bullets].
  apply no_victim_survives; [|exact Hnone].
  apply filter_In. split; [|now apply in_bounds_spec].
  rewrite <- Hrest. now apply in_map.
Qed.

(** ** C10 *)

(** C10: a shoot intent of a live, registered player appends a bullet
    at the shooter's position whose velocity is ten times the payload,
    an absent [dx] or [dy] counting as 0.  With both absent the bullet
    does not move, the message has changed the world all the same, and
    the bullet is still there after a tick if it lies in the arena and
    overlaps no eligible player.  A move intent with both fields absent
    leaves the position, and the whole world, as it is. *)
Theorem absent_fields_default_to_zero w pid p odx ody :
  Dict.get pid (players w) = Some p ->
  is_dead p = false ->
  let shot := mkBullet (fst (pos p)) (snd (pos p))
                (get_default odx * 10) (get_default ody * 10) pid in
  let w1 := set_bullets (bullets w ++ [shot]) w in
  handle_message (mkMsg (Some "shoot"%string) (Some pid) odx ody) w
    = Ok w1 /\
  (odx = None -> b_dx shot = 0) /\
  (ody = None -> b_dy shot = 0) /\
  (odx = None -> ody = None ->
   move_bullet shot = shot /\
   List.length (bullets w1) = S (List.length (bullets w)) /\
   forall now,
     inside_arena shot -> first_victim shot (players w) = None ->
     exists w2 out, game_tick now w1 = Ok (w2, out) /\ In shot (bullets w2)) /\
  handle_message (mkMsg (Some "move"%string) (Some pid) None None) w = Ok w.
Proof.
  intros Hget Halive shot w1.
  split; [|split; [|split; [|split]]].
  - unfold handle_message. cbn [player_id action m_dx m_dy].
    rewrite handle_intent_eq, Hget, Halive. reflexivity.
  - now intros ->.
  - now intros ->.
  - intros -> ->. split; [|split].
    + unfold move_bullet, shot. cbn. now rewrite !Z.add_0_r.
    + unfold w1. cbn [bullets set_bullets]. rewrite length_app. cbn. lia.
    + intros now Harena Hnone.
      apply resting_bullet_persists; try assumption.
      * unfold w1. cbn [bullets set_bullets]. apply in_or_app.
        right. now left.
      * unfold move_bullet, shot. cbn. now rewrite !Z.add_0_r.
  - unfold handle_message. cbn [player_id action m_dx m_dy].
    rewrite handle_intent_eq, Hget, Halive. cbn [is_action String.eqb].
    cbn [get_default]. rewrite !Z.add_0_r.
    rewrite dict_update_id.
    + now destruct w.
    + intros v Hv. assert (v = p) by congruence. subst v.
      destruct p as [[px py] col h k d]. reflexivity.
Qed.

Lemma absent_fields_default_to_zero_witness :
  Dict.get 0 (players sample_world)
    = Some (mkPlayer (100, 100) grey 100 0 false) /\
  handle_message (mkMsg (Some "shoot"%string) (Some 0) None None)
                 sample_world
    = Ok (set_bullets [sample_bullet; mkBullet 100 100 0 0 0] sample_world) /\
  handle_message (mkMsg (Some "move"%string) (Some 0) None None)
                 sample_world
    = Ok sample_world.
Proof.
  split; [reflexivity|].
  destruct (absent_fields_default_to_zero sample_world 0
              (mkPlayer (100, 100) grey 100 0 false) None None
              eq_refl eq_refl)
    as (Hshoot & _ & _ & _ & Hmove).
  split; [exact Hshoot|exact Hmove].
Defined.

(** * Further properties of the server *)

(** ** Capacity *)

Lemma run_event_len e w w' out :
  run_event e w = Ok (w', out) ->
  Dict.len (players w') <= Dict.len (players w) \/
  (Dict.len (players w) < MAX_PLAYERS /\
   Dict.len (players w') <= Dict.len (players w) + 1).
Proof.
  destruct e as [c col now|m|pid c|now]; simpl.
  - unfold accept.
    destruct (Z.geb_spec (Dict.len (players w)) MAX_PLAYERS).
    + intros [= <- _]. left. lia.
    + pose proof (dict_len_set (next_player_id w) (new_player col)
                    (players w)) as Hlen.
      cbn. destruct (game_start_time w);
        [|destruct (Dict.len _ >=? 4)]; intros [= <- _]; cbn;
        right; (split; [assumption|lia]).
  - destruct (handle_message m w) as [w1|] eqn:Hm; [|discriminate].
    cbn [bind]. intros [= <- _].
    apply handle_message_frame in Hm as (Hk & _).
    rewrite !dict_len_keys, Hk. left. lia.
  - intros Ht. apply teardown_frame in Ht as (-> & _). left.
    destruct (Dict.mem pid (players w)); [apply dict_len_remove|lia].
  - intros Ht. apply game_tick_frame in Ht as (Hk & _).
    rewrite !dict_len_keys, Hk. left. lia.
Qed.

(** X1: however admissions, messages, teardowns and ticks interleave,
    the player map never holds more than [MAX_PLAYERS] = 5 players. *)
Theorem player_count_never_exceeds_capacity es w :
  run_events es initial_world = Ok w ->
  0 <= Dict.len (players w) <= 5.
Proof.
  intros Hrun. split; [unfold Dict.len; lia|]. revert Hrun.
  apply (run_events_invariant (fun w => Dict.len (players w) <= 5)).
  - intros e w0 w1 out Hinv He.
    destruct (run_event_len e w0 w1 out He) as [Hle|[Hlt Hle]];
      unfold MAX_PLAYERS in *; lia.
  - cbn. lia.
Qed.

Lemma player_count_never_exceeds_capacity_witness :
  exists w,
    run_events crowd_trace initial_world = Ok w /\
    Dict.len (players w) = 5 /\
    0 <= Dict.len (players w) <= 5.
Proof.
  eexists. split; [vm_compute; reflexivity|]. split; [reflexivity|].
  eapply (player_count_never_exceeds_capacity crowd_trace).
  vm_compute. reflexivity.
Defined.

(** ** The connection registry follows the player map *)

Lemma dict_mem_same_keys {A B : Type} (k : Z)
    (d1 : Dict.t A) (d2 : Dict.t B) :
  Dict.keys d1 = Dict.keys d2 -> Dict.mem k d1 = Dict.mem k d2.
Proof.
  intros Hk.
  pose proof (dict_mem_keys k d1) as H1.
  pose proof (dict_mem_keys k d2) as H2. rewrite Hk in H1.
  destruct (Dict.mem k d1), (Dict.mem k d2); try reflexivity.
  - symmetry. apply H2, H1. reflexivity.
  - apply H1, H2. reflexivity.
Qed.

Lemma dict_keys_set_same {A B : Type} (k : Z) (a : A) (b : B)
    (d1 : Dict.t A) (d2 : Dict.t B) :
  Dict.keys d1 = Dict.keys d2 ->
  Dict.keys (Dict.set k a d1) = Dict.keys (Dict.set k b d2).
Proof.
  intros Hk. rewrite !dict_keys_set, (dict_mem_same_keys k d1 d2 Hk), Hk.
  reflexivity.
Qed.

Lemma dict_keys_remove_same {A B : Type} (k : Z)
    (d1 : Dict.t A) (d2 : Dict.t B) :
  Dict.keys d1 = Dict.keys d2 ->
  Dict.keys (Dict.remove k d1) = Dict.keys (Dict.remove k d2).
Proof.
  unfold Dict.keys. revert d2.
  induction d1 as [|[k1 v1] d1 IH]; intros [|[k2 v2] d2]; simpl;
    try discriminate; [reflexivity|].
  intros [= -> Hk]. destruct (k =? k2); simpl; [assumption|].
  f_equal. now apply IH.
Qed.

Lemma handle_message_registry m w w' :
  handle_message m w = Ok w' ->
  player_connections w' = player_connections w /\
  client_sockets w' = client_sockets w.
Proof.
  unfold handle_message.
  destruct (player_id m) as [pid|]; [|now intros [= <-]].
  rewrite handle_intent_eq.
  destruct (Dict.get pid (players w)) as [p|]; [|now intros [= <-]].
  destruct (is_dead p); [now intros [= <-]|].
  destruct (is_action "move" (action m)); [now intros [= <-]|].
  destruct (is_action "shoot" (action m)); now intros [= <-].
Qed.

Lemma run_event_registry e w w' out :
  Dict.keys (player_connections w) = Dict.keys (players w) ->
  run_event e w = Ok (w', out) ->
  Dict.keys (player_connections w') = Dict.keys (players w').
Proof.
  intros Hk. destruct e as [c col now|m|pid c|now]; simpl.
  - unfold accept.
    destruct (Dict.len (players w) >=? MAX_PLAYERS);
      [now intros [= <- _]|].
    cbn. destruct (game_start_time w);
      [|destruct (Dict.len _ >=? 4)]; intros [= <- _];
      cbn [players player_connections]; now apply dict_keys_set_same.
  - destruct (handle_message m w) as [w1|] eqn:Hm; [|discriminate].
    cbn [bind]. intros [= <- _].
    pose proof (handle_message_frame _ _ _ Hm) as (Hkeys & _).
    pose proof (handle_message_registry _ _ _ Hm) as (Hpc & _).
    congruence.
  - destruct (teardown_eq pid c w) as (cs & ->). intros [= <- _].
    cbn [players player_connections set_player_connections
         set_client_sockets set_players].
    rewrite (dict_mem_same_keys pid _ _ Hk).
    destruct (Dict.mem pid (players w)); [|assumption].
    now apply dict_keys_remove_same.
  - rewrite game_tick_eq. intros [= <- _].
    unfold set_bullets, set_players. cbn [players player_connections].
    now rewrite resolve_all_keys.
Qed.

Lemma reachable_registry es w :
  run_events es initial_world = Ok w ->
  Dict.keys (player_connections w) = Dict.keys (players w).
Proof.
  apply (run_events_invariant
           (fun w => Dict.keys (player_connections w)
                     = Dict.keys (players w))).
  - intros e w0 w1 out. apply run_event_registry.
  - reflexivity.
Qed.

(** X2: in every reachable world the connection registry has exactly
    the keys of the player map, in the same order; so a direct message
    to [pid] is sent, once, exactly when [pid] is a registered player,
    and is dropped silently otherwise. *)
Theorem registry_matches_players es w pid m :
  run_events es initial_world = Ok w ->
  Dict.keys (player_connections w) = Dict.keys (players w) /\
  (Dict.mem pid (players w) = true ->
   exists c, Dict.get pid (player_connections w) = Some c /\
             send_msg_to_player pid m w = [Send c m]) /\
  (Dict.mem pid (players w) = false -> send_msg_to_player pid m w = []).
Proof.
  intros Hrun. pose proof (reachable_registry es w Hrun) as Hk.
  split; [exact Hk|]. unfold send_msg_to_player, Dict.getitem.
  rewrite (dict_mem_same_keys pid _ _ Hk). split; intros Hm; rewrite Hm.
  - rewrite <- (dict_mem_same_keys pid _ _ Hk) in Hm.
    apply dict_mem_get in Hm as [c Hc]. exists c. now rewrite Hc.
  - reflexivity.
Qed.

Lemma registry_matches_players_witness :
  exists w,
    run_events leave_trace initial_world = Ok w /\
    Dict.keys (player_connections w) = Dict.keys (players w) /\
    send_msg_to_player 1 ServerFull w = [Send 1%nat ServerFull] /\
    send_msg_to_player 0 ServerFull w = [].
Proof.
  eexists. split; [vm_compute; reflexivity|].
  match goal with
  | |- Dict.keys (player_connections ?w0) = _ /\ _ =>
      assert (Hrun : run_events leave_trace initial_world = Ok w0)
        by (vm_compute; reflexivity)
  end.
  split; [exact (proj1 (registry_matches_players _ _ 1 ServerFull Hrun))|].
  split; reflexivity.
Defined.

(** ** Admission hands out fresh identities *)

Lemma dict_mem_above {V : Type} (n : Z) (d : Dict.t V) :
  Forall (fun kv => fst kv < n) d -> Dict.mem n d = false.
Proof.
  intros Hall. destruct (Dict.mem n d) eqn:Hm; [|reflexivity].
  apply dict_mem_get in Hm as [v Hv]. apply dict_get_In in Hv.
  rewrite Forall_forall in Hall. specialize (Hall _ Hv). cbn in Hall. lia.
Qed.

Lemma dict_set_absent {V : Type} (k : Z) (v : V) (d : Dict.t V) :
  Dict.mem k d = false -> Dict.set k v d = d ++ [(k, v)].
Proof.
  unfold Dict.mem.
  induction d as [|[k0 v0] d IH]; simpl; [reflexivity|].
  destruct (k =? k0); [discriminate|]. intros H. now rewrite IH.
Qed.



(** What an admission below capacity does to a world whose counter is
    above every key. *)
Lemma accept_fresh c col now w :
  Dict.len (players w) < MAX_PLAYERS ->
  Dict.mem (next_player_id w) (players w) = false ->
  Dict.mem (next_player_id w) (player_connections w) = false ->
  exists w',
    accept c col now w
      = (w', [Send c (Handshake (next_player_id w) MAX_PLAYERS);
              StartThread c (next_player_id w)]) /\
    players w' = players w ++ [(next_player_id w, new_player col)] /\
    player_connections w' = player_connections w ++ [(next_player_id w, c)] /\
    client_sockets w' = client_sockets w ++ [c] /\
    next_player_id w' = next_player_id w + 1 /\
    bullets w' = bullets w.
Proof.
  intros Hlen Hp Hc. unfold accept.
  destruct (Z.geb_spec (Dict.len (players w)) MAX_PLAYERS); [lia|].
  cbn. rewrite (dict_set_absent _ _ _ Hp), (dict_set_absent _ _ _ Hc).
  destruct (game_start_time w); [|destruct (Dict.len _ >=? 4)];
    eexists; (split; [reflexivity|]); cbn; repeat split.
Qed.


(** X3: in a reachable world below capacity, an admission registers
    exactly one new player, under an identity no registered player has,
    last in enumeration order, with the spawn record; it files the
    connection under the same identity, moves the counter on by one and
    answers with the handshake that carries this identity. *)
Theorem admission_registers_fresh_player es w c col now :
  run_events es initial_world = Ok w ->
  Dict.len (players w) < MAX_PLAYERS ->
  Dict.mem (next_player_id w) (players w) = false /\
  exists w',
    accept c col now w
      = (w', [Send c (Handshake (next_player_id w) MAX_PLAYERS);
              StartThread c (next_player_id w)]) /\
    players w' = players w ++ [(next_player_id w, new_player col)] /\
    player_connections w' = player_connections w ++ [(next_player_id w, c)] /\
    client_sockets w' = client_sockets w ++ [c] /\
    next_player_id w' = next_player_id w + 1 /\
    bullets w' = bullets w.
Proof.
  intros Hrun Hlen.
  pose proof (dict_mem_above _ _ (reachable_fresh es w Hrun)) as Hp.
  split; [exact Hp|]. apply accept_fresh; try assumption.
  now rewrite (dict_mem_same_keys _ _ _ (reachable_registry es w Hrun)).
Qed.

Lemma admission_registers_fresh_player_witness :
  exists w w',
    run_events leave_trace initial_world = Ok w /\
    Dict.len (players w) < MAX_PLAYERS /\
    accept 2%nat grey 1%Q w
      = (w', [Send 2%nat (Handshake 2 MAX_PLAYERS); StartThread 2%nat 2]) /\
    Dict.keys (players w') = [1; 2].
Proof.
  eexists. eexists. split; [vm_compute; reflexivity|].
  split; [reflexivity|].
  match goal with
  | |- accept _ _ _ ?w0 = _ /\ _ =>
      assert (Hrun : run_events leave_trace initial_world = Ok w0)
        by (vm_compute; reflexivity);
      destruct (admission_registers_fresh_player
                  leave_trace w0 2%nat grey 1%Q Hrun eq_refl)
        as (_ & w1 & Hacc & Hps & _)
  end.
  split; [vm_compute; reflexivity|reflexivity].
Defined.

(** A step does not bring back an identity that was handed out and is
    no longer registered. *)
Lemma run_event_stays_gone pid e w w' out :
  pid < next_player_id w ->
  Forall (fun kv => fst kv < next_player_id w) (players w) ->
  Dict.mem pid (players w) = false ->
  run_event e w = Ok (w', out) ->
  Dict.mem pid (players w') = false.
Proof.
  intros Hlt Hfresh Hgone. destruct e as [c col now|m|k c|now]; simpl.
  - unfold accept.
    destruct (Dict.len (players w) >=? MAX_PLAYERS);
      [now intros [= <- _]|].
    assert (Hset : Dict.mem pid
              (Dict.set (next_player_id w) (new_player col) (players w))
              = false).
    { unfold Dict.mem in *. rewrite dict_get_set.
      destruct (Z.eqb_spec pid (next_player_id w)); [lia|assumption]. }
    cbn. destruct (game_start_time w);
      [|destruct (Dict.len _ >=? 4)]; now intros [= <- _].
  - destruct (handle_message m w) as [w1|] eqn:Hm; [|discriminate].
    cbn [bind]. intros [= <- _].
    apply handle_message_frame in Hm as (Hk & _).
    now rewrite (dict_mem_same_keys pid _ _ Hk).
  - intros Ht. apply teardown_frame in Ht as (-> & _).
    destruct (Dict.mem k (players w)); [|assumption].
    destruct (Dict.mem pid (Dict.remove k (players w))) eqn:Hm;
      [|reflexivity].
    apply dict_mem_keys, dict_keys_remove_incl, dict_mem_keys in Hm.
    congruence.
  - intros Ht. apply game_tick_frame in Ht as (Hk & _).
    now rewrite (dict_mem_same_keys pid _ _ Hk).
Qed.

(** X4: once the teardown of an identity that has been handed out has
    run, that identity is in neither the player map nor the connection
    registry, whatever happens afterwards: identities are not reused, so
    no later snapshot mentions the player. *)
Theorem torn_down_player_never_returns es w pid c w1 out es' w' :
  run_events es initial_world = Ok w ->
  pid < next_player_id w ->
  teardown pid c w = Ok (w1, out) ->
  run_events es' w1 = Ok w' ->
  Dict.mem pid (players w') = false /\
  Dict.mem pid (player_connections w') = false.
Proof.
  intros Hrun Hlt Htd Hrun'.
  assert (Hrun1 : run_events (es ++ [Disconnect pid c]) initial_world
                  = Ok w1).
  { rewrite run_events_app, Hrun. cbn. now rewrite Htd. }
  assert (Hgone : Dict.mem pid (players w') = false).
  { assert (HI : (pid < next_player_id w' /\
                  Forall (fun kv => fst kv < next_player_id w')
                         (players w')) /\
                 Dict.mem pid (players w') = false).
    { revert Hrun'.
      apply (run_events_invariant
               (fun w0 => (pid < next_player_id w0 /\
                           Forall (fun kv => fst kv < next_player_id w0)
                                  (players w0)) /\
                          Dict.mem pid (players w0) = false)).
      - intros e w0 w2 out0 [[Hl Hf] Hg] He.
        pose proof (run_event_fresh e w0 w2 out0 Hf He) as [Hmono Hf'].
        split; [split; [lia|exact Hf']|].
        now apply (run_event_stays_gone pid e w0 w2 out0).
      - pose proof (teardown_frame _ _ _ _ _ Htd) as (Hp & Hn & _).
        split; [split|].
        + lia.
        + exact (reachable_fresh _ _ Hrun1).
        + rewrite Hp. destruct (Dict.mem pid (players w)) eqn:Hm;
            [|exact Hm].
          apply dict_mem_remove_same. exact (reachable_wf es w Hrun). }
    exact (proj2 HI). }
  split; [exact Hgone|].
  assert (Hrun2 : run_events ((es ++ [Disconnect pid c]) ++ es')
                    initial_world = Ok w').
  { rewrite run_events_app, Hrun1. exact Hrun'. }
  now rewrite (dict_mem_same_keys pid _ _ (reachable_registry _ _ Hrun2)).
Qed.

Lemma torn_down_player_never_returns_witness :
  exists w w1 w',
    run_events two_admissions initial_world = Ok w /\
    teardown 0 0%nat w = Ok (w1, [Close 0%nat]) /\
    run_events rejoin_trace w1 = Ok w' /\
    Dict.keys (players w') = [1; 2; 3] /\
    Dict.mem 0 (players w') = false /\
    Dict.mem 0 (player_connections w') = false.
Proof.
  do 3 eexists.
  split; [vm_compute; reflexivity|].
  split; [vm_compute; reflexivity|].
  split; [vm_compute; reflexivity|].
  split; [reflexivity|].
  eapply (torn_down_player_never_returns
            two_admissions _ 0 0%nat _ _ rejoin_trace);
    vm_compute; reflexivity.
Defined.

(** ** Joining and leaving *)



(** ** What a player record can and cannot do over time *)

(** Health is one of 0, 25, ..., 100 besides obeying the health
    invariant. *)
Lemma player_sound_damaged v :
  (player_ok v /\ health v mod 25 = 0) -> is_dead v = false ->
  player_ok (damaged v) /\ health (damaged v) mod 25 = 0.
Proof.
  intros [Hok Hmod] Halive. split; [now apply player_ok_damaged|].
  unfold damaged. destruct (health v - 25 <=? 0); cbn; [reflexivity|].
  replace (health v - 25) with (health v + (-1) * 25) by lia.
  now rewrite Z_mod_plus_full.
Qed.

Lemma reachable_players_sound es w :
  run_events es initial_world = Ok w ->
  Forall (fun kv => player_ok (snd kv) /\ health (snd kv) mod 25 = 0)
         (players w).
Proof.
  apply (run_events_invariant
           (fun w => Forall (fun kv => player_ok (snd kv) /\
                                       health (snd kv) mod 25 = 0)
                            (players w)));
    [|constructor].
  intros e w0 w1 out Hinv He.
  apply (run_event_preserves
           (fun _ v => player_ok v /\ health v mod 25 = 0) e w0 w1 out);
    try assumption.
  - intros _ v xy Hv. exact Hv.
  - intros _ v Hv. exact Hv.
  - intros _ v. apply player_sound_damaged.
  - intros col. unfold player_ok. cbn. repeat split; try lia; discriminate.
Qed.

(** X6: the health of a registered player is always one of 0, 25, 50,
    75 and 100, and a live player has at least 25: a hit never drives
    the health below 0, so the clamp at line 174 only ever rewrites a 0,
    and a player dies by exactly the fourth hit. *)
Theorem health_is_a_multiple_of_25 es w pid p :
  run_events es initial_world = Ok w ->
  Dict.get pid (players w) = Some p ->
  In (health p) [0; 25; 50; 75; 100] /\
  (is_dead p = false -> 0 <= health p - 25).
Proof.
  intros Hrun Hget.
  pose proof (reachable_players_sound es w Hrun) as Hall.
  rewrite Forall_forall in Hall.
  destruct (Hall _ (dict_get_In _ _ _ Hget)) as [[Hr Hiff] Hmod].
  cbn in *.
  assert (H : health p = 0 \/ health p = 25 \/ health p = 50 \/
              health p = 75 \/ health p = 100).
  { pose proof (Z.div_mod (health p) 25). lia. }
  split.
  - cbn. intuition.
  - intros Halive. assert (health p <> 0); [|lia].
    intros H0. apply Hiff in H0. congruence.
Qed.

Lemma health_is_a_multiple_of_25_witness :
  exists w p,
    run_events sample_trace initial_world = Ok w /\
    Dict.get 1 (players w) = Some p /\
    health p = 75 /\
    In (health p) [0; 25; 50; 75; 100].
Proof.
  do 2 eexists. split; [vm_compute; reflexivity|].
  split; [reflexivity|]. split; [reflexivity|].
  match goal with
  | |- In (health ?p0) _ =>
      refine (proj1 (health_is_a_multiple_of_25 sample_trace _ 1 p0 _ _))
  end; vm_compute; reflexivity.
Defined.

(** X7: while a player stays registered, no sequence of admissions,
    messages, teardowns and ticks lowers its kill counter, raises its
    health or changes its colour. *)
Theorem kills_grow_health_shrinks_colour_stays es w pid p es' w' p' :
  run_events es initial_world = Ok w ->
  Dict.get pid (players w) = Some p ->
  run_events es' w = Ok w' ->
  Dict.get pid (players w') = Some p' ->
  kills p <= kills p' /\ health p' <= health p /\ color p' = color p.
Proof.
  intros Hrun Hget Hrun' Hget'.
  pose proof (reachable_wf es w Hrun) as Hwf.
  pose proof (reachable_fresh es w Hrun) as Hfresh.
  pose proof (reachable_players_sound es w Hrun) as Hsound.
  set (P := fun (k : Z) (v : player) =>
              0 <= health v /\
              (k = pid ->
               kills p <= kills v /\ health v <= health p /\
               color v = color p)).
  assert (HI : (pid < next_player_id w' /\
                Forall (fun kv => fst kv < next_player_id w') (players w')) /\
               Forall (fun kv => P (fst kv) (snd kv)) (players w')).
  { revert Hrun'.
    apply (run_events_invariant
             (fun w0 => (pid < next_player_id w0 /\
                         Forall (fun kv => fst kv < next_player_id w0)
                                (players w0)) /\
                        Forall (fun kv => P (fst kv) (snd kv))
                               (players w0))).
    - intros e w0 w1 out [[Hlt Hfr] HP] He.
      pose proof (run_event_fresh e w0 w1 out Hfr He) as [Hmono Hfr'].
      split; [split; [lia|exact Hfr']|].
      apply (run_event_preserves P e w0 w1 out); try assumption;
        unfold P.
      + intros k v xy Hv. exact Hv.
      + intros k v [H0 Hk]. split; [exact H0|]. intros E.
        destruct (Hk E) as (Hkl & Hh & Hc). cbn. repeat split; try lia;
          assumption.
      + intros k v [H0 Hk] Halive. unfold damaged.
        destruct (Z.leb_spec (health v - 25) 0); cbn.
        * split; [lia|]. intros E. destruct (Hk E) as (Hkl & Hh & Hc).
          repeat split; try lia; assumption.
        * split; [lia|]. intros E. destruct (Hk E) as (Hkl & Hh & Hc).
          repeat split; try lia; assumption.
      + intros col. cbn. split; [lia|]. intros E. lia.
    - split; [split; [|exact Hfresh]|].
      + rewrite Forall_forall in Hfresh.
        exact (Hfresh _ (dict_get_In _ _ _ Hget)).
      + apply Forall_forall. intros [k v] Hin. unfold P. cbn.
        rewrite Forall_forall in Hsound.
        destruct (Hsound _ Hin) as [[[H0 _] _] _]. cbn in H0.
        split; [exact H0|]. intros ->.
        apply (dict_In_get _ _ _ Hwf) in Hin.
        assert (v = p) by congruence. subst v. repeat split; lia. }
  destruct HI as [_ HP]. rewrite Forall_forall in HP.
  exact (proj2 (HP _ (dict_get_In _ _ _ Hget')) eq_refl).
Qed.

Lemma kills_grow_health_shrinks_colour_stays_witness :
  exists w p w' p',
    run_events two_admissions initial_world = Ok w /\
    Dict.get 0 (players w) = Some p /\
    run_events (skipn 2 kill_trace) w = Ok w' /\
    Dict.get 0 (players w') = Some p' /\
    kills p' = 1 /\
    kills p <= kills p' /\ health p' <= health p /\ color p' = color p.
Proof.
  do 4 eexists.
  split; [vm_compute; reflexivity|].
  split; [reflexivity|].
  split; [vm_compute; reflexivity|].
  split; [reflexivity|].
  split; [reflexivity|].
  eapply (kills_grow_health_shrinks_colour_stays
            two_admissions _ 0 _ (skipn 2 kill_trace) _ _);
    vm_compute; reflexivity.
Defined.

(** ** Accounting of a collision pass *)

Lemma total_health_update_same k f (d : Dict.t player) :
  (forall v, health (f v) = health v) ->
  total_health (Dict.update k f d) = total_health d.
Proof.
  intros Hf. induction d as [|[k0 v0] d IH]; simpl; [reflexivity|].
  destruct (k =? k0); simpl; [now rewrite Hf|now rewrite IH].
Qed.

Lemma total_health_update k f (d : Dict.t player) v :
  Dict.get k d = Some v ->
  total_health (Dict.update k f d)
  = total_health d - health v + health (f v).
Proof.
  induction d as [|[k0 v0] d IH]; simpl; [discriminate|].
  destruct (k =? k0); simpl.
  - intros [= ->]. lia.
  - intros H. rewrite (IH H). lia.
Qed.

Lemma resolve_bullet_total_health b ps :
  Dict.wf ps ->
  Forall (fun kv => player_ok (snd kv) /\ health (snd kv) mod 25 = 0) ps ->
  total_health (fst (resolve_bullet b ps))
  = total_health ps - (if snd (resolve_bullet b ps) then 25 else 0).
Proof.
  intros Hwf Hall. unfold resolve_bullet.
  destruct (first_victim b ps) as [[vid pdata]|] eqn:Hf; cbn [fst snd];
    [|lia].
  apply first_victim_In in Hf as (Hin & _ & Halive & _).
  rewrite Forall_forall in Hall.
  destruct (Hall _ Hin) as [[Hr Hiff] Hmod]. cbn in Hr, Hiff, Hmod.
  assert (Hge : 25 <= health pdata).
  { assert (health pdata <> 0) by (intros H0; apply Hiff in H0; congruence).
    pose proof (Z.div_mod (health pdata) 25). lia. }
  assert (Hd : health (damaged pdata) = health pdata - 25).
  { unfold damaged. destruct (Z.leb_spec (health pdata - 25) 0); cbn; lia. }
  pose proof (total_health_update vid (fun _ => damaged pdata) ps pdata
                (dict_In_get _ _ _ Hwf Hin)) as Hup.
  cbv beta in Hup.
  destruct (health pdata - 25 <=? 0).
  - rewrite total_health_update_same by reflexivity. lia.
  - lia.
Qed.

Lemma resolve_all_total_health bs ps :
  Dict.wf ps ->
  Forall (fun kv => player_ok (snd kv) /\ health (snd kv) mod 25 = 0) ps ->
  total_health (fst (resolve_all bs ps))
  = total_health ps
    - 25 * (Z.of_nat (List.length bs)
            - Z.of_nat (List.length (snd (resolve_all bs ps)))).
Proof.
  revert ps. induction bs as [|b bs IH]; intros ps Hwf Hall;
    cbn [resolve_all]; [cbn [fst snd List.length]; lia|].
  pose proof (resolve_bullet_total_health b ps Hwf Hall) as Hb.
  pose proof (resolve_bullet_keys b ps) as Hk.
  pose proof (resolve_bullet_preserves
                (fun _ v => player_ok v /\ health v mod 25 = 0)
                (fun _ v Hv => Hv) (fun _ v => player_sound_damaged v)
                b ps Hall) as Hall'.
  destruct (resolve_bullet b ps) as [ps' hit]. cbn [fst snd] in *.
  assert (Hwf' : Dict.wf ps') by (unfold Dict.wf; now rewrite Hk).
  specialize (IH ps' Hwf' Hall').
  destruct (resolve_all bs ps') as [ps'' sv]. cbn [fst snd] in *.
  destruct hit; cbn [List.length]; lia.
Qed.

Lemma resolve_all_length bs ps :
  (List.length (snd (resolve_all bs ps)) <= List.length bs)%nat.
Proof.
  revert ps. induction bs as [|b bs IH]; intros ps; simpl; [lia|].
  destruct (resolve_bullet b ps) as [ps' hit]. specialize (IH ps').
  destruct (resolve_all bs ps') as [ps'' sv]. cbn [snd] in *.
  destruct hit; simpl List.length; lia.
Qed.

(** X8: a collision pass over any bullet list, on the players of a
    reachable world, takes exactly 25 health per spent bullet from the
    players in total: the health of all players together drops by 25
    times the number of bullets that did not survive. *)
Theorem collision_pass_conserves_health es w bs :
  run_events es initial_world = Ok w ->
  exists w',
    check_bullet_collisions (set_bullets bs w) = Ok w' /\
    (List.length (bullets w') <= List.length bs)%nat /\
    total_health (players w')
    = total_health (players w)
      - 25 * (Z.of_nat (List.length bs)
              - Z.of_nat (List.length (bullets w'))).
Proof.
  intros Hrun. rewrite check_bullet_collisions_resolve.
  eexists. split; [reflexivity|]. cbn [players bullets set_bullets set_players].
  pose proof (resolve_all_total_health bs (players w)
                (reachable_wf es w Hrun)
                (reachable_players_sound es w Hrun)) as Hth.
  split; [apply resolve_all_length|exact Hth].
Qed.

Lemma collision_pass_conserves_health_witness :
  exists w w',
    run_events two_admissions initial_world = Ok w /\
    check_bullet_collisions
      (set_bullets [mkBullet 405 300 10 0 0; mkBullet 395 300 10 0 0;
                    mkBullet 0 0 10 0 0] w) = Ok w' /\
    List.length (bullets w') = 1%nat /\
    total_health (players w') = total_health (players w) - 25 * (3 - 1).
Proof.
  eexists.
  assert (Hrun : run_events two_admissions initial_world = Ok _)
    by (vm_compute; reflexivity).
  destruct (collision_pass_conserves_health two_admissions _
              [mkBullet 405 300 10 0 0; mkBullet 395 300 10 0 0;
               mkBullet 0 0 10 0 0] Hrun)
    as (w' & Hc & _ & Hth).
  exists w'. split; [exact Hrun|]. split; [exact Hc|].
  assert (Hlen : List.length (bullets w') = 1%nat).
  { vm_compute in Hc. injection Hc as <-. reflexivity. }
  split; [exact Hlen|]. rewrite Hth, Hlen. reflexivity.
Defined.

(** ** What a tick leaves alone *)







(** ** Bullets in flight do not last *)






(** ** Moves add up *)


(** ** The countdown *)

(** X12: once the session has started, the time a tick reports never
    grows as the clock advances; it is at most 300 from the start on,
    equals 300 minus the elapsed time while less than 300 have elapsed,
    and is 0 from then on. *)
Theorem time_left_counts_down w start now1 now2 :
  game_start_time w = Some start ->
  (now1 <= now2)%Q ->
  (time_left now2 w <= time_left now1 w)%Q /\
  ((start <= now1)%Q -> (time_left now1 w <= 300)%Q) /\
  ((now1 - start <= 300)%Q ->
   (time_left now1 w == 300 - (now1 - start))%Q) /\
  ((300 <= now1 - start)%Q -> (time_left now1 w == 0)%Q).
Proof.
  intros Hs Hle. unfold time_left. rewrite Hs. cbv zeta.
  change (inject_Z GAME_DURATION) with 300%Q.
  split; [|split; [|split]].
  - apply Q.max_le_compat_l. lra.
  - intros H. apply Q.max_lub; lra.
  - intros H. apply Q.max_r. lra.
  - intros H. apply Q.max_l. lra.
Qed.

Lemma time_left_counts_down_witness :
  game_start_time full_world = Some 0%Q /\
  (10 <= 400)%Q /\
  (time_left 400 full_world <= time_left 10 full_world)%Q /\
  (time_left 10 full_world == 290)%Q /\
  (time_left 400 full_world == 0)%Q.
Proof.
  assert (Hle : (10 <= 400)%Q) by (vm_compute; discriminate).
  destruct (time_left_counts_down full_world 0 10 400 eq_refl Hle)
    as (Hmono & _ & _).
  split; [reflexivity|]. split; [exact Hle|]. split; [exact Hmono|].
  split; reflexivity.
Defined.

(** ** The handshake, seen from the client *)

(** X13: the first thing an admission attempt puts on the new socket is
    what the client's start-up reads.  From a full server it is
    [server_full] and the client exits, the world being unchanged;
    otherwise the client adopts an identity under which the server has
    just filed the spawn record and this very connection.  A state
    snapshot read in place of the handshake makes the client exit. *)
Theorem client_adopts_registered_identity c col now w :
  exists first rest,
    snd (accept c col now w) = Send c first :: rest /\
    (Dict.len (players w) >= MAX_PLAYERS ->
     client_handshake first = ClientExit /\ fst (accept c col now w) = w) /\
    (Dict.len (players w) < MAX_PLAYERS ->
     exists pid,
       client_handshake first = ClientConnected (Some pid) /\
       Dict.get pid (players (fst (accept c col now w)))
         = Some (new_player col) /\
       Dict.get pid (player_connections (fst (accept c col now w)))
         = Some c) /\
    (forall ps bs t, client_handshake (GameState ps bs t) = ClientExit).
Proof.
  unfold accept.
  destruct (Z.geb_spec (Dict.len (players w)) MAX_PLAYERS) as [Hfull|Hroom].
  - do 2 eexists. split; [reflexivity|]. split; [|split].
    + intros _. split; reflexivity.
    + intros H. lia.
    + reflexivity.
  - do 2 eexists. split; [reflexivity|]. split; [|split].
    + intros H. lia.
    + intros _. exists (next_player_id w). split; [reflexivity|].
      cbn -[Dict.set Dict.get Dict.len].
      destruct (game_start_time w); [|destruct (Dict.len _ >=? 4)];
        cbn -[Dict.set Dict.get]; rewrite !dict_get_set, Z.eqb_refl;
        split; reflexivity.
    + reflexivity.
Qed.

(** ** Nobody is hurt by their own bullets *)

Lemma resolve_all_own_bullets bs ps pid :
  Forall (fun b => owner_id b = pid) bs ->
  option_map vitals (Dict.get pid (fst (resolve_all bs ps)))
  = option_map vitals (Dict.get pid ps).
Proof.
  revert ps. induction bs as [|b bs IH]; intros ps Hown;
    cbn [resolve_all]; [reflexivity|].
  inversion Hown as [|? ? Hb Hrest]; subst.
  assert (Hstep : option_map vitals
                    (Dict.get (owner_id b) (fst (resolve_bullet b ps)))
                  = option_map vitals (Dict.get (owner_id b) ps)).
  { destruct (first_victim b ps) as [[vid pdata]|] eqn:Hf.
    - apply (resolve_bullet_others b ps vid pdata); [exact Hf|].
      apply first_victim_In in Hf as (_ & Hne & _). congruence.
    - unfold resolve_bullet. now rewrite Hf. }
  destruct (resolve_bullet b ps) as [ps' hit]. cbn [fst] in Hstep.
  specialize (IH ps' Hrest).
  destruct (resolve_all bs ps') as [ps'' sv]. cbn [fst] in *. congruence.
Qed.

(** X14: a collision pass over bullets that all belong to one player
    leaves that player's position, colour, health and [is_dead] flag as
    they are, wherever the bullets are: nobody is hurt by their own
    bullets. *)
Theorem own_bullets_do_no_harm bs ps pid :
  Forall (fun b => owner_id b = pid) bs ->
  exists ps' sv,
    collide_loop bs ps [] = Ok (ps', sv) /\
    option_map vitals (Dict.get pid ps')
    = option_map vitals (Dict.get pid ps).
Proof.
  intros Hown. rewrite collide_loop_resolve. do 2 eexists.
  split; [reflexivity|]. now apply resolve_all_own_bullets.
Qed.

Lemma own_bullets_do_no_harm_witness :
  Forall (fun b => owner_id b = 0) [sample_bullet; mkBullet 100 100 0 0 0] /\
  exists ps' sv,
    collide_loop [sample_bullet; mkBullet 100 100 0 0 0] sample_players []
      = Ok (ps', sv) /\
    option_map vitals (Dict.get 0 ps')
    = option_map vitals (Dict.get 0 sample_players).
Proof.
  assert (H : Forall (fun b => owner_id b = 0)
                [sample_bullet; mkBullet 100 100 0 0 0])
    by (repeat constructor).
  split; [exact H|]. exact (own_bullets_do_no_harm _ sample_players 0 H).
Defined.

(** ** Kills and deaths *)

Lemma tally_update_same f k g (d : Dict.t player) :
  (forall v, f (g v) = f v) -> tally f (Dict.update k g d) = tally f d.
Proof.
  intros Hf. induction d as [|[k0 v0] d IH]; simpl; [reflexivity|].
  destruct (k =? k0); simpl; [now rewrite Hf|now rewrite IH].
Qed.

Lemma tally_update f k g (d : Dict.t player) v :
  Dict.get k d = Some v ->
  tally f (Dict.update k g d) = tally f d - f v + f (g v).
Proof.
  induction d as [|[k0 v0] d IH]; simpl; [discriminate|].
  destruct (k =? k0); simpl.
  - intros [= ->]. lia.
  - intros H. rewrite (IH H). lia.
Qed.

Lemma resolve_bullet_kills_deaths b ps :
  Dict.wf ps ->
  let ps' := fst (resolve_bullet b ps) in
  0 <= total_kills ps' - total_kills ps <= dead_count ps' - dead_count ps /\
  dead_count ps' - dead_count ps <= (if snd (resolve_bullet b ps) then 1 else 0) /\
  (Dict.mem (owner_id b) ps = true ->
   total_kills ps' - total_kills ps = dead_count ps' - dead_count ps).
Proof.
  intros Hwf. unfold resolve_bullet, total_kills, dead_count.
  destruct (first_victim b ps) as [[vid pdata]|] eqn:Hf; cbn [fst snd];
    [|cbv zeta; lia].
  apply first_victim_In in Hf as (Hin & Hne & Halive & _).
  apply (dict_In_get _ _ _ Hwf) in Hin.
  pose proof (tally_update kills vid (fun _ => damaged pdata) ps pdata Hin)
    as Hk.
  pose proof (tally_update (fun p => if is_dead p then 1 else 0) vid
                (fun _ => damaged pdata) ps pdata Hin) as Hd.
  cbv beta in Hk, Hd. rewrite Halive in Hd.
  assert (Hdk : kills (damaged pdata) = kills pdata)
    by (unfold damaged; now destruct (health pdata - 25 <=? 0)).
  assert (Hdd : is_dead (damaged pdata) = (health pdata - 25 <=? 0))
    by (unfold damaged; now destruct (health pdata - 25 <=? 0)).
  rewrite Hdk in Hk. rewrite Hdd in Hd. cbv zeta.
  destruct (health pdata - 25 <=? 0);
    [|split; [lia|split; [lia|intros _; lia]]].
  rewrite (tally_update_same (fun p => if is_dead p then 1 else 0))
    by reflexivity.
  destruct (Dict.get (owner_id b) ps) as [o|] eqn:Ho.
  - rewrite (tally_update kills (owner_id b) credited _ o)
      by (rewrite dict_get_update_other by congruence; exact Ho).
    cbn [credited kills]. split; [lia|split; [lia|intros _; lia]].
  - rewrite (dict_update_id (owner_id b) credited)
      by (intros v Hv; rewrite dict_get_update_other in Hv by congruence;
          congruence).
    split; [lia|split; [lia|]].
    unfold Dict.mem. rewrite Ho. discriminate.
Qed.

Lemma resolve_all_kills_deaths bs ps :
  Dict.wf ps ->
  let ps' := fst (resolve_all bs ps) in
  0 <= total_kills ps' - total_kills ps <= dead_count ps' - dead_count ps /\
  dead_count ps' - dead_count ps
  <= Z.of_nat (List.length bs)
     - Z.of_nat (List.length (snd (resolve_all bs ps))) /\
  (Forall (fun b => Dict.mem (owner_id b) ps = true) bs ->
   total_kills ps' - total_kills ps = dead_count ps' - dead_count ps).
Proof.
  revert ps. induction bs as [|b bs IH]; intros ps Hwf;
    cbn [resolve_all]; [cbn [fst snd List.length]; cbv zeta; lia|].
  pose proof (resolve_bullet_kills_deaths b ps Hwf) as Hb.
  pose proof (resolve_bullet_keys b ps) as Hk. cbv zeta in Hb.
  destruct (resolve_bullet b ps) as [ps1 hit]. cbn [fst snd] in *.
  assert (Hwf1 : Dict.wf ps1) by (unfold Dict.wf; now rewrite Hk).
  specialize (IH ps1 Hwf1). cbv zeta in IH.
  destruct (resolve_all bs ps1) as [ps2 sv]. cbn [fst snd] in *.
  destruct Hb as (Hb1 & Hb2 & Hb3). destruct IH as (I1 & I2 & I3).
  split; [lia|]. split.
  - destruct hit; cbn [List.length]; lia.
  - intros Hown. inversion Hown as [|? ? Ho Hrest]; subst.
    specialize (Hb3 Ho).
    assert (Hrest1 : Forall (fun b0 => Dict.mem (owner_id b0) ps1 = true) bs).
    { eapply Forall_impl; [|exact Hrest]. cbv beta. intros b0 Hb0.
      now rewrite (dict_mem_same_keys (owner_id b0) ps1 ps Hk). }
    specialize (I3 Hrest1). lia.
Qed.

(** X15: in a collision pass on the players of a reachable world, the
    kill counters go up, in total, by at most the number of players who
    die in the pass, which is at most the number of spent bullets; and
    by exactly that number when the owner of every bullet is still
    registered.  A kill by the bullet of a departed owner is credited to
    nobody. *)
Theorem kills_credited_match_deaths es w bs :
  run_events es initial_world = Ok w ->
  exists w',
    check_bullet_collisions (set_bullets bs w) = Ok w' /\
    0 <= total_kills (players w') - total_kills (players w)
      <= dead_count (players w') - dead_count (players w) /\
    dead_count (players w') - dead_count (players w)
    <= Z.of_nat (List.length bs) - Z.of_nat (List.length (bullets w')) /\
    (Forall (fun b => Dict.mem (owner_id b) (players w) = true) bs ->
     total_kills (players w') - total_kills (players w)
     = dead_count (players w') - dead_count (players w)).
Proof.
  intros Hrun. rewrite check_bullet_collisions_resolve.
  eexists. split; [reflexivity|].
  cbn [players bullets set_bullets set_players].
  exact (resolve_all_kills_deaths bs (players w) (reachable_wf es w Hrun)).
Qed.

Lemma kills_credited_match_deaths_witness :
  exists w w',
    run_events (firstn 8 kill_trace) initial_world = Ok w /\
    check_bullet_collisions (set_bullets [mkBullet 405 300 10 0 0] w)
      = Ok w' /\
    dead_count (players w') - dead_count (players w) = 1 /\
    total_kills (players w') - total_kills (players w)
    = dead_count (players w') - dead_count (players w).
Proof.
  eexists.
  assert (Hrun : run_events (firstn 8 kill_trace) initial_world = Ok _)
    by (vm_compute; reflexivity).
  destruct (kills_credited_match_deaths _ _ [mkBullet 405 300 10 0 0] Hrun)
    as (w' & Hc & _ & _ & Heq).
  exists w'. split; [exact Hrun|]. split; [exact Hc|]. split.
  - vm_compute in Hc. injection Hc as <-. reflexivity.
  - apply Heq. repeat constructor.
Defined.

(** ** A message touches only its sender *)

